(** * From-TCP-To-HTTP: the incremental HTTP/1.1 request parser and the
      response writer, embedded from the Go sources

    - [internal/headers/headers.go]   : [headers.Parse], [headers.isTokenChar]
    - [internal/request/request.go]   : [request.parseRequestLine],
      [request.parseSingle], [request.parse], [request.RequestFromReader]
    - [internal/response/writer.go], [response.go] : the three-phase [Writer]

    Conventions of the embedding.
    - A Go [byte] is an [ascii] (eight bits); a [[]byte] is a [list ascii];
      a Go [string] is a Rocq [string]; [string(b)] is [str b] and
      [[]byte(s)] is [Bytes s].
    - Lengths, indices and byte counts are [nat]; a "not found" index
      ([-1] in Go) is [None].
    - A Go [map[string]string] is a [gmap string string]; the [nil] map of a
      struct field is [None].
    - Go's [error] values are the constructors of [error]; a run-time panic
      (slice out of range, nil dereference) unwinds every caller, and is
      modelled by the pseudo-error [RuntimePanic], which every caller
      propagates exactly like it propagates an error. *)

From Stdlib Require Import Ascii String.
From stdpp Require Import gmap strings list pretty.

Open Scope string_scope.
Open Scope nat_scope.
Open Scope list_scope.

(** [length] is the length of a list throughout; [String.length] is written
    in full. *)
Abbreviation length := List.length.

(** ** Bytes and strings *)

Abbreviation byte := ascii.
Abbreviation bytes := (list ascii).

Definition Bytes (s : string) : bytes := list_ascii_of_string s.
Definition str (b : bytes) : string := string_of_list_ascii b.

Definition ord (b : byte) : N := N_of_ascii b.

Definition CR : byte := ascii_of_N 13.
Definition LF : byte := ascii_of_N 10.
Definition CRLF : bytes := [CR; LF].
(** ["\r\n"] as a Go string literal. *)
Definition crlf : string := str CRLF.

(** ** Errors of the three packages *)

Inductive error : Type :=
  (* io *)
  | io_EOF
  | ReaderError (msg : string)          (* any other error of a Reader *)
  | WriterError (msg : string)          (* any error of an io.Writer *)
  (* internal/headers *)
  | ErrNoColon
  | ErrSpaceBeforeColon
  | ErrEmptyKey
  | ErrInvalidCharInKey
  | ErrKeyDoesntExist
  (* internal/request *)
  | ERROR_PARSING_METHOD_IN_REQUEST_LINE
  | ERROR_PARSING_TARGET_IN_REQUEST_LINE
  | ERROR_PARSING_HTTP_VERSION_IN_REQUEST_LINE
  | ErrorInvalidMethod (method : string)
  | ErrorInvalidVersion (version : string)
  (* internal/response: the three gate errors of the Writer *)
  | ErrCannotWriteStatusLine (current : nat)
  | ErrCannotWriteHeaderLine (current : nat)
  | ErrCannotWriteBody
  (* a Go run-time panic *)
  | RuntimePanic (what : string).

#[global] Instance error_eq_dec : EqDecision error.
Proof. solve_decision. Defined.

(** ** The part of Go's [bytes] package that the parser calls *)

Module bytes_pkg.

Fixpoint HasPrefix (s prefix : bytes) {struct prefix} : bool :=
  match prefix, s with
  | [], _ => true
  | _ :: _, [] => false
  | p :: prefix', c :: s' => bool_decide (c = p) && HasPrefix s' prefix'
  end.

(** [bytes.Index(s, sep)]: offset of the first occurrence, [None] for -1. *)
Fixpoint Index (s sep : bytes) : option nat :=
  if HasPrefix s sep then Some 0
  else match s with
       | [] => None
       | _ :: s' => S <$> Index s' sep
       end.

(** [bytes.Cut(s, sep)]: [(before, after, found)];
    [(s, nil, false)] when [sep] does not occur. *)
Definition Cut (s sep : bytes) : bytes * bytes * bool :=
  match Index s sep with
  | Some i => (take i s, drop (i + length sep) s, true)
  | None => (s, [], false)
  end.

(** [bytes.TrimLeft(s, cutset)] for a one-byte ASCII cutset. *)
Fixpoint TrimLeft (s : bytes) (c : byte) : bytes :=
  match s with
  | x :: s' => if bool_decide (x = c) then TrimLeft s' c else s
  | [] => []
  end.

Definition isASCII (c : byte) : bool := (ord c <? 128)%N.

(** The [asciiSpace] table: tab, newline, vertical tab, form feed,
    carriage return, space. *)
Definition asciiSpace (c : byte) : bool :=
  bool_decide (ord c ∈ [9; 10; 11; 12; 13; 32]%N).

Definition lowerASCII (c : byte) : byte :=
  if ((ord "A" <=? ord c) && (ord c <=? ord "Z"))%N
  then ascii_of_N (ord c + 32) else c.

(** The two places where [bytes] leaves ASCII and consults the Unicode
    tables of the Go run time.  The tables are outside the repository, so
    the two functions are an interface of the development. *)
Class UnicodeTables := {
  (* bytes.Map(unicode.ToLower, s) *)
  MapToLower : bytes → bytes;
  (* bytes.TrimFunc(s, unicode.IsSpace) *)
  TrimFuncIsSpace : bytes → bytes
}.

Section with_unicode.
Context `{U : UnicodeTables}.

(** [bytes.ToLower]: the ASCII-only fast path, else the Unicode map. *)
Definition ToLower (s : bytes) : bytes :=
  if forallb isASCII s then lowerASCII <$> s else MapToLower s.

(** Leading ASCII white space removed; stops at the first byte that is
    not ASCII white space. *)
Fixpoint skipSpace (s : bytes) : bytes :=
  match s with
  | c :: s' => if asciiSpace c then skipSpace s' else s
  | [] => []
  end.

(** [bytes.TrimSpace]: scan from the start, then from the end; a byte
    >= 0x80 met by either scan hands the remaining window to
    [TrimFunc(_, unicode.IsSpace)]. *)
Definition TrimSpace (s : bytes) : bytes :=
  match skipSpace s with
  | [] => []
  | (c :: _) as s1 =>
      if isASCII c then
        let s2 := reverse (skipSpace (reverse s1)) in
        match last s2 with
        | Some d => if isASCII d then s2 else TrimFuncIsSpace s2
        | None => []
        end
      else TrimFuncIsSpace s1
  end.
End with_unicode.

End bytes_pkg.
Export bytes_pkg.

(** ** internal/headers *)

Module headers.

Abbreviation Headers := (gmap string string).

Definition NewHeaders : Headers := ∅.

Definition isTokenChar (b : byte) : bool :=
  if ((ord "a" <=? ord b) && (ord b <=? ord "z")
      || (ord "0" <=? ord b) && (ord b <=? ord "9"))%N
  then true
  else bool_decide (b ∈ Bytes "!#$%&'*+-.^_`|~").

Section with_unicode.
Context `{U : UnicodeTables}.

(** [func (h Headers) Parse(data []byte) (n int, done bool, err error)].
    The map is mutated in place by the Go code; the embedding returns
    the map after the call next to the three results. *)
Definition Parse (h : Headers) (data : bytes)
  : Headers * (nat * bool * option error) :=
  match Index data CRLF with
  | None => (h, (0, false, None))
  | Some idx =>
      if bool_decide (idx = 0) then (h, (idx + 2, true, None))
      else
        let header := take idx data in
        let '(key, remaining, found) := Cut header (Bytes ":") in
        if negb found then (h, (0, false, Some ErrNoColon))
        else
          match last key with
          | None => (h, (0, false, Some ErrEmptyKey))
          | Some c =>
              if bool_decide (c = " "%char)
              then (h, (0, false, Some ErrSpaceBeforeColon))
              else
                let value := TrimSpace remaining in
                let key := TrimLeft key " " in
                let normalizedKey := ToLower key in
                if negb (forallb isTokenChar normalizedKey)
                then (h, (0, false, Some ErrInvalidCharInKey))
                else
                  let keyStr := str normalizedKey in
                  let valStr := str value in
                  let h' :=
                    match h !! keyStr with
                    | Some existingValue =>
                        <[keyStr := existingValue +:+ ", " +:+ valStr]> h
                    | None => <[keyStr := valStr]> h
                    end in
                  (h', (idx + 2, false, None))
          end
  end.

(** [Get] and [Set] of the later revision of the package. *)
Definition Get (h : Headers) (key : bytes) : string * option error :=
  match h !! str (ToLower key) with
  | Some i => (i, None)
  | None => ("", Some ErrKeyDoesntExist)
  end.

Definition Set_ (h : Headers) (key value : string) : Headers :=
  <[str (ToLower (Bytes key)) := value]> h.
End with_unicode.

End headers.

(** ** internal/request *)

Module request.

(** [iota] order of the source: Initialized = 0, Done = 1,
    ParsingHeaders = 2. *)
Inductive parserState : Type :=
  | requestStateInitialized
  | requestStateDone
  | requestStateParsingHeaders.

#[global] Instance parserState_eq_dec : EqDecision parserState.
Proof. solve_decision. Defined.

Record RequestLine : Type := mkRequestLine {
  HttpVersion : string;
  RequestTarget : string;
  Method : string
}.

(** [Headers] is [None] for the nil map of a fresh request. *)
Record Request : Type := mkRequest {
  Line : RequestLine;                       (* field RequestLine *)
  Headers : option (gmap string string);
  state : parserState
}.

#[global] Instance RequestLine_eq_dec : EqDecision RequestLine.
Proof. solve_decision. Defined.
#[global] Instance Request_eq_dec : EqDecision Request.
Proof. solve_decision. Defined.

Definition newRequest : Request :=
  mkRequest (mkRequestLine "" "" "") None requestStateInitialized.

Definition with_state (r : Request) (s : parserState) : Request :=
  mkRequest (Line r) (Headers r) s.

(** [parseRequestLine(data)], returning a pointer to the request line (or
    nil), the count of bytes parsed, the rest of the message, an error. *)
Definition parseRequestLine (data : bytes)
  : option RequestLine * nat * bytes * option error :=
  let '(line, restOfMsg, found) := Cut data CRLF in
  if negb found then (None, 0, data, None)
  else
    let numBytesParsed := length line + 2 in
    let '(method, rest, found) := Cut line (Bytes " ") in
    if negb found
    then (None, 0, data, Some ERROR_PARSING_METHOD_IN_REQUEST_LINE)
    else
      let '(target, rest, found) := Cut rest (Bytes " ") in
      if negb found
      then (None, 0, data, Some ERROR_PARSING_TARGET_IN_REQUEST_LINE)
      else
        if negb (bool_decide (str rest = "HTTP/1.1"))
        then (None, 0, data, Some (ErrorInvalidVersion (str rest)))
        else
          let '(_, rest, found) := Cut rest (Bytes "/") in
          if negb found
          then (None, 0, data,
                Some ERROR_PARSING_HTTP_VERSION_IN_REQUEST_LINE)
          else
            let version := rest in
            if existsb (λ char, (ord char <? ord "A")%N
                                || (ord "Z" <? ord char)%N) method
            then (None, 0, data, Some (ErrorInvalidMethod (str method)))
            else (Some (mkRequestLine (str version) (str target)
                                      (str method)),
                  numBytesParsed, restOfMsg, None).

Section with_unicode.
Context `{U : UnicodeTables}.

(** [func (r *Request) parseSingle(p []byte) (int, error)]; the request
    after the call is returned next to the two results. *)
Definition parseSingle (r : Request) (p : bytes)
  : Request * (nat * option error) :=
  match state r with
  | requestStateInitialized =>
      let '(rlp, numBytesParsed, _, err) := parseRequestLine p in
      match err with
      | Some e => (r, (0, Some e))
      | None =>
          if bool_decide (numBytesParsed = 0) then (r, (0, None))
          else
            match rlp with
            | Some rl =>
                (mkRequest rl (Headers r) requestStateParsingHeaders,
                 (numBytesParsed, None))
            | None =>
                (r, (0, Some (RuntimePanic "nil pointer dereference")))
            end
      end
  | requestStateParsingHeaders =>
      let hs := match Headers r with
                | Some h => h
                | None => headers.NewHeaders
                end in
      let '(hs', (numBytesParsed, done, err)) := headers.Parse hs p in
      let r' := mkRequest (Line r) (Some hs') (state r) in
      match err with
      | Some e => (r', (0, Some e))
      | None =>
          if bool_decide (numBytesParsed = 0) then (r', (0, None))
          else if done
               then (with_state r' requestStateDone, (numBytesParsed, None))
               else (r', (numBytesParsed, None))
      end
  | requestStateDone => (r, (0, None))
  end.

(** The loop of [func (r *Request) parse(p []byte) (int, error)].  Every
    turn that goes on has consumed at least one byte, so [length p] turns
    are enough ([parse_total]); [None] is the loop cut short. *)
Fixpoint parse_loop (fuel : nat) (r : Request) (p : bytes)
    (totalBytesParsed : nat) : option (Request * (nat * option error)) :=
  if bool_decide (state r = requestStateDone)
  then Some (r, (totalBytesParsed, None))
  else if bool_decide (length p ≤ totalBytesParsed)
  then Some (r, (totalBytesParsed, None))
  else
    match fuel with
    | 0 => None
    | S fuel' =>
        let '(r', (n, err)) := parseSingle r (drop totalBytesParsed p) in
        match err with
        | Some e => Some (r', (totalBytesParsed, Some e))
        | None =>
            if bool_decide (n = 0) then Some (r', (totalBytesParsed, None))
            else parse_loop fuel' r' p (totalBytesParsed + n)
        end
    end.

Definition parse (r : Request) (p : bytes)
  : option (Request * (nat * option error)) :=
  parse_loop (length p) r p 0.

(** A [Reader] is what its successive [Read(chunk)] calls return: the bytes
    [chunk[:n]] and the error, and [(0, io.EOF)] for ever once the list is
    used up.  ([len(chunk)] is 1024, so a real Reader never delivers more
    than [chunkSize] bytes in one call.) *)
Definition Reader : Type := list (bytes * option error).

Definition chunkSize : nat := 1024.

(** [buf[numBytesParsed:]], which panics beyond [len(buf)]. *)
Definition reslice (buf : bytes) (n : nat) : option bytes :=
  if bool_decide (n ≤ length buf) then Some (drop n buf) else None.

(** The read loop of [RequestFromReader], from the state [(req, buf)].
    The result is Go's pair of a Request pointer and an error; the outer
    [None] is [parse] cut short. *)
Fixpoint readLoop (req : Request) (buf : bytes) (reader : Reader)
  : option (option Request * option error) :=
  if bool_decide (state req = requestStateDone) then Some (Some req, None)
  else
    match reader with
    | [] => Some (Some (with_state req requestStateDone), None)
    | (data, err) :: reader' =>
        if bool_decide (is_Some err ∧ err ≠ Some io_EOF)
        then Some (None, err)
        else if bool_decide (length data = 0 ∧ err = Some io_EOF)
        then Some (Some (with_state req requestStateDone), None)
        else
          let buf := buf ++ data in
          match parse req buf with
          | None => None
          | Some (req', (numBytesParsed, Some e)) => Some (None, Some e)
          | Some (req', (numBytesParsed, None)) =>
              if bool_decide (0 < numBytesParsed)
              then
                match reslice buf numBytesParsed with
                | Some buf' => readLoop req' buf' reader'
                | None =>
                    Some (None,
                          Some (RuntimePanic "slice bounds out of range"))
                end
              else readLoop req' buf reader'
          end
    end.

(** [func RequestFromReader(reader io.Reader)] *)
Definition RequestFromReader (reader : Reader)
  : option (option Request * option error) :=
  readLoop newRequest [] reader.

End with_unicode.

(** *** The readers of the tests *)

Fixpoint chunks (fuel k : nat) (data : bytes) : list bytes :=
  match fuel, data with
  | S fuel', _ :: _ => take k data :: chunks fuel' k (drop k data)
  | _, _ => []
  end.

Definition deliver (cs : list bytes) : Reader := (λ c, (c, None)) <$> cs.

(** [chunkReader{data, numBytesPerRead}] of request_test.go, for
    [numBytesPerRead >= 1]: each [Read] copies
    [min(numBytesPerRead, len(p))] bytes, then [(0, io.EOF)]. *)
Definition chunkReader (data : bytes) (numBytesPerRead : nat) : Reader :=
  deliver (chunks (length data) (numBytesPerRead `min` chunkSize) data).

(** [strings.NewReader(s)]: each [Read] copies as much as fits. *)
Definition strings_NewReader (s : string) : Reader :=
  deliver (chunks (length (Bytes s)) chunkSize (Bytes s)).

End request.

(** ** internal/response *)

Module response.

Abbreviation StatusCode := Z.

Definition StatusOK : StatusCode := 200.
Definition StatusBadRequest : StatusCode := 400.
Definition StatusInternalServerError : StatusCode := 500.

(** [iota] order: StatusPending = 0, HeadersPending = 1, BodyPending = 2. *)
Inductive WriterState : Type :=
  | StateStatusPending
  | StateHeadersPending
  | StateBodyPending.

#[global] Instance WriterState_eq_dec : EqDecision WriterState.
Proof. solve_decision. Defined.

(** The integer that [%v] prints for a state. *)
Definition WriterState_int (s : WriterState) : nat :=
  match s with
  | StateStatusPending => 0
  | StateHeadersPending => 1
  | StateBodyPending => 2
  end.

(** [func GetDefaultHeaders(contentLen int) headers.Headers]: the three
    entries are stored under the keys as they are spelled, capitals
    included. *)
Definition GetDefaultHeaders (contentLen : Z) : gmap string string :=
  <["Content-Type" := "text/plain"]>
    (<["Connection" := "close"]>
       (<["Content-Length" := pretty contentLen]> headers.NewHeaders)).

(** The [io.Writer] interface: [Write(p) (n int, err error)] on a writer
    whose state is a [W]. *)
Class IoWriter (W : Type) := {
  Write : W → bytes → W * (nat * option error)
}.

Section with_writer.
Context {W : Type} `{IO : IoWriter W}.
(** The order in which a [range] statement visits the entries of a map is
    not specified by Go; [rangeOrder] is the order taken. *)
Context (rangeOrder : gmap string string → list (string * string)).

(** [func WriteStatusLine(w io.Writer, statusCode StatusCode) error] *)
Definition WriteStatusLine (w : W) (statusCode : StatusCode)
  : W * option error :=
  let statusLine :=
    if bool_decide (statusCode = StatusOK)
    then "HTTP/1.1 200 OK" +:+ crlf
    else if bool_decide (statusCode = StatusBadRequest)
    then "HTTP/1.1 400 Bad Request" +:+ crlf
    else if bool_decide (statusCode = StatusInternalServerError)
    then "HTTP/1.1 500 Internal Server Error" +:+ crlf
    else "HTTP/1.1 " +:+ pretty statusCode +:+ " " +:+ crlf in
  let '(w', (_, err)) := Write w (Bytes statusLine) in
  (w', err).

Fixpoint writeEntries (w : W) (entries : list (string * string))
  : W * option error :=
  match entries with
  | [] => (w, None)
  | (k, v) :: entries' =>
      let line := k +:+ ": " +:+ v +:+ crlf in
      let '(w', (_, err)) := Write w (Bytes line) in
      match err with
      | Some e => (w', Some e)
      | None => writeEntries w' entries'
      end
  end.

(** [func WriteHeaders(w io.Writer, headers headers.Headers) error] *)
Definition WriteHeaders (w : W) (headers : gmap string string)
  : W * option error :=
  writeEntries w (rangeOrder headers).

Record Writer : Type := mkWriter {
  writer : W;
  state : WriterState
}.

Definition NewWriter (w : W) : Writer := mkWriter w StateStatusPending.

(** [func (w *Writer) WriteStatusLine(statusCode StatusCode) error] *)
Definition Writer_WriteStatusLine (w : Writer) (statusCode : StatusCode)
  : Writer * option error :=
  if bool_decide (state w ≠ StateStatusPending)
  then (w, Some (ErrCannotWriteStatusLine (WriterState_int (state w))))
  else
    match WriteStatusLine (writer w) statusCode with
    | (io, Some e) => (mkWriter io (state w), Some e)
    | (io, None) => (mkWriter io StateHeadersPending, None)
    end.

(** [func (w *Writer) WriteHeaders(headers headers.Headers) error] *)
Definition Writer_WriteHeaders (w : Writer) (headers : gmap string string)
  : Writer * option error :=
  if bool_decide (state w ≠ StateHeadersPending)
  then (w, Some (ErrCannotWriteHeaderLine (WriterState_int (state w))))
  else
    match WriteHeaders (writer w) headers with
    | (io, Some e) => (mkWriter io (state w), Some e)
    | (io, None) =>
        match Write io CRLF with
        | (io', (_, Some e)) => (mkWriter io' (state w), Some e)
        | (io', (_, None)) => (mkWriter io' StateBodyPending, None)
        end
    end.

(** [func (w *Writer) WriteBody(p []byte) (int, error)] *)
Definition Writer_WriteBody (w : Writer) (p : bytes)
  : Writer * (nat * option error) :=
  if bool_decide (state w ≠ StateBodyPending)
  then (w, (0, Some ErrCannotWriteBody))
  else
    let '(io, res) := Write (writer w) p in
    (mkWriter io (state w), res).

(** A handler drives the writer by a sequence of calls. *)
Inductive Call : Type :=
  | CallWriteStatusLine (statusCode : StatusCode)
  | CallWriteHeaders (headers : gmap string string)
  | CallWriteBody (p : bytes).

Definition call (w : Writer) (c : Call) : Writer * option error :=
  match c with
  | CallWriteStatusLine statusCode => Writer_WriteStatusLine w statusCode
  | CallWriteHeaders headers => Writer_WriteHeaders w headers
  | CallWriteBody p =>
      let '(w', (_, err)) := Writer_WriteBody w p in (w', err)
  end.

(** The writer after a sequence of calls, whatever each call returned. *)
Definition calls (w : Writer) (cs : list Call) : Writer :=
  foldl (λ w c, (call w c).1) w cs.

End with_writer.

End response.

(** * Vocabulary of the statements *)

Module parser_statements.
Import headers request.

(** Stand-in tables, for evaluating the parser on ASCII input, where the
    tables are never consulted. *)
Definition identityTables : UnicodeTables :=
  {| MapToLower := id; TrimFuncIsSpace := id |}.

(** The streams of the scenarios. *)
Definition scenarioA : string :=
  "GET / HTTP/1.1" +:+ crlf +:+ "Host: localhost:42069" +:+ crlf +:+ crlf.
Definition scenarioC : string :=
  "POST /x HTTP/1.1" +:+ crlf +:+ "Content-Length: 5" +:+ crlf +:+ crlf
  +:+ "123456".
Definition scenarioF : string :=
  "GET / HTTP/1.1" +:+ crlf +:+ "Host: localhost" +:+ crlf +:+ "User-Age".

(** A byte that is not an ASCII capital letter. *)
Definition outside_A_Z (b : byte) : Prop :=
  (ord b < ord "A")%N ∨ (ord "Z" < ord b)%N.

(** The request after a call that consumed nothing: in the header state
    the nil map has been replaced by an empty one. *)
Definition touch (r : Request) : Request :=
  match state r with
  | requestStateParsingHeaders =>
      mkRequest (Line r) (Some (default headers.NewHeaders (Headers r)))
                (state r)
  | _ => r
  end.

(** A result counted from a later start of the same slice. *)
Definition shift (t : nat) (x : Request * (nat * option error))
  : Request * (nat * option error) :=
  (x.1, (t + x.2.1, x.2.2)).

(** The field line [name ":" raw CRLF]. *)
Definition fieldLine (name raw : bytes) : bytes :=
  name ++ Bytes ":" ++ raw ++ CRLF.

(** A field name that is a token, in any casing of its letters. *)
Definition validName (name : bytes) : Prop :=
  name ≠ [] ∧ Forall (λ b, isTokenChar (lowerASCII b) = true) name.

(** A valid field line of the name [key] in some casing: the name is a
    token that lower-cases to [key], the raw value has no CRLF. *)
Definition fieldOf (key : string) (f : bytes * bytes) : Prop :=
  validName f.1 ∧ str (lowerASCII <$> f.1) = key ∧ Index f.2 CRLF = None.

(** [v1 + ", " + v2 + ... + ", " + vN] *)
Definition joined (values : list string) : string :=
  match values with
  | [] => ""
  | v :: vs => foldl (λ acc v, acc +:+ ", " +:+ v) v vs
  end.

(** A read that is not the end of the stream and not a failure: its error
    is nil, or it is io.EOF together with at least one byte (the loop
    parses these bytes like those of any other read). *)
Definition dataRead (rd : bytes * option error) : bool :=
  match rd with
  | (_, None) => true
  | (data, Some e) => bool_decide (e = io_EOF) && bool_decide (data ≠ [])
  end.

Section with_unicode.
Context `{U : UnicodeTables}.

(** The loop from [totalBytesParsed = t], with the fuel that is enough. *)
Definition parse_from (r : Request) (p : bytes) (t : nat)
  : option (Request * (nat * option error)) :=
  parse_loop (length p - t) r p t.

(** The state [(req, buf)] of the read loop when the reader has delivered
    the chunks [cs] and the loop is about to call [Read] again; [None] when
    the loop has returned before that, with state Done or with an error. *)
Fixpoint pending (req : Request) (buf : bytes) (cs : list bytes)
  : option (Request * bytes) :=
  if bool_decide (state req = requestStateDone) then None
  else
    match cs with
    | [] => Some (req, buf)
    | c :: cs' =>
        match parse req (buf ++ c) with
        | Some (req', (n, None)) => pending req' (drop n (buf ++ c)) cs'
        | _ => None
        end
    end.

(** The map after one field line [f = (name, raw)] of an ASCII name: the
    trimmed value is inserted under the lower-cased name, or appended after
    ", " to the value that is there. *)
Definition addField (h : gmap string string) (f : bytes * bytes)
  : gmap string string :=
  let k := str (lowerASCII <$> f.1) in
  let v := str (TrimSpace f.2) in
  match h !! k with
  | Some existingValue => <[k := existingValue +:+ ", " +:+ v]> h
  | None => <[k := v]> h
  end.

(** The lines given to [Parse] one after the other, each as its own slice;
    the map at the end when every call consumed its whole line as a field
    line (no error, done = false). *)
Fixpoint ParseEach (h : gmap string string) (lines : list bytes)
  : option (gmap string string) :=
  match lines with
  | [] => Some h
  | l :: ls =>
      match Parse h l with
      | (h', (n, false, None)) =>
          if bool_decide (n = length l) then ParseEach h' ls else None
      | _ => None
      end
  end.

End with_unicode.
End parser_statements.
Export parser_statements.

Module consumed_statements.
Import headers request.

(** The bytes of the lines [lines], each followed by its CRLF. *)
Definition withCRLF (lines : list bytes) : bytes :=
  concat ((λ l, l ++ CRLF) <$> lines).

Section with_unicode.
Context `{U : UnicodeTables}.

(** The lines [lines], followed by [rest], consumed one by one: each call
    of [parseSingle] is given the slice that begins with the next line,
    as in the loop of [parse], and has to report, without error, the
    length of that line and its CRLF and nothing more.  The request after
    the last line; [None] when a call reports anything else. *)
Fixpoint consumeLines (r : Request) (lines : list bytes) (rest : bytes)
  : option Request :=
  match lines with
  | [] => Some r
  | l :: lines' =>
      match parseSingle r (l ++ CRLF ++ withCRLF lines' ++ rest) with
      | (r1, (m, None)) =>
          if bool_decide (m = length l + 2)
          then consumeLines r1 lines' rest
          else None
      | _ => None
      end
  end.

End with_unicode.
End consumed_statements.
Export consumed_statements.

Module writer_statements.
Import response.

(** A writer that records what it is given and never fails. *)
Definition logWriter : IoWriter (list bytes) :=
  {| Write w p := (w ++ [p], (length p, None)) |}.

Section with_writer.
Context {W : Type} `{IO : IoWriter W}.
Context (rangeOrder : gmap string string → list (string * string)).

(** In the call sequence [cs] on a new writer over [io], a call of
    WriteStatusLine returned no error. *)
Definition statusLineWritten (io : W) (cs : list Call) : Prop :=
  ∃ cs1 statusCode cs2,
    cs = cs1 ++ CallWriteStatusLine statusCode :: cs2
    ∧ (call rangeOrder (calls rangeOrder (NewWriter io) cs1)
            (CallWriteStatusLine statusCode)).2 = None.

(** ... and after it a call of WriteHeaders returned no error. *)
Definition headersWritten (io : W) (cs : list Call) : Prop :=
  ∃ cs1 statusCode cs2 headers cs3,
    cs = cs1 ++ CallWriteStatusLine statusCode :: cs2
             ++ CallWriteHeaders headers :: cs3
    ∧ (call rangeOrder (calls rangeOrder (NewWriter io) cs1)
            (CallWriteStatusLine statusCode)).2 = None
    ∧ (call rangeOrder
            (calls rangeOrder (NewWriter io)
                   (cs1 ++ CallWriteStatusLine statusCode :: cs2))
            (CallWriteHeaders headers)).2 = None.

End with_writer.
End writer_statements.
Export writer_statements.

(** ** cmd/tcplistener: the handler of the server binary *)

Module tcplistener.
Import response.

Definition nl : string := String LF "".

Definition html200 : string :=
  "<html>" +:+ nl +:+
  "  <head>" +:+ nl +:+
  "    <title>200 OK</title>" +:+ nl +:+
  "  </head>" +:+ nl +:+
  "  <body>" +:+ nl +:+
  "    <h1>Success!</h1>" +:+ nl +:+
  "    <p>Your request was an absolute banger.</p>" +:+ nl +:+
  "  </body>" +:+ nl +:+
  "</html>".

Definition html400 : string :=
  "<html>" +:+ nl +:+
  "  <head>" +:+ nl +:+
  "    <title>400 Bad Request</title>" +:+ nl +:+
  "  </head>" +:+ nl +:+
  "  <body>" +:+ nl +:+
  "    <h1>Bad Request</h1>" +:+ nl +:+
  "    <p>Your request honestly kinda sucked.</p>" +:+ nl +:+
  "  </body>" +:+ nl +:+
  "</html>".

Definition html500 : string :=
  "<html>" +:+ nl +:+
  "  <head>" +:+ nl +:+
  "    <title>500 Internal Server Error</title>" +:+ nl +:+
  "  </head>" +:+ nl +:+
  "  <body>" +:+ nl +:+
  "    <h1>Internal Server Error</h1>" +:+ nl +:+
  "    <p>Okay, you know what? This one is on me.</p>" +:+ nl +:+
  "  </body>" +:+ nl +:+
  "</html>".

(** What [log.Printf("... %v", err)] prints: the text before the error,
    and the error. *)
Definition LogLine : Type := string * error.

Section with_io.
Context `{U : UnicodeTables} {W : Type} `{IO : IoWriter W}.
Context (rangeOrder : gmap string string → list (string * string)).

(** The status and the body that [handler] picks for a request target. *)
Definition route (path : string) : StatusCode * bytes :=
  if bool_decide (path = "/400") then (StatusBadRequest, Bytes html400)
  else if bool_decide (path = "/500")
  then (StatusInternalServerError, Bytes html500)
  else (StatusOK, Bytes html200).

(** [func handler(w *response.Writer, req *request.Request)]; [req] is a
    pointer, [None] for nil.  The writer after the call and the lines
    logged are returned. *)
Definition handler (w : Writer) (req : option request.Request)
  : Writer * list LogLine :=
  match req with
  | None => (w, [("panic: ", RuntimePanic "nil pointer dereference")])
  | Some req =>
      let path := request.RequestTarget (request.Line req) in
      let '(status, body) := route path in
      match Writer_WriteStatusLine w status with
      | (w, Some err) => (w, [("Failed to write status: ", err)])
      | (w, None) =>
          let h := GetDefaultHeaders (Z.of_nat (length body)) in
          let h := headers.Set_ h "Content-Type" "text/html" in
          match Writer_WriteHeaders rangeOrder w h with
          | (w, Some err) => (w, [("Failed to write headers: ", err)])
          | (w, None) =>
              match Writer_WriteBody w body with
              | (w, (_, Some err)) => (w, [("Failed to write body: ", err)])
              | (w, (_, None)) => (w, [])
              end
          end
      end
  end.

End with_io.
End tcplistener.

(** ** internal/server: one connection *)

Module server.
Import response.

Section with_conn.
Context `{U : UnicodeTables} {W : Type} `{IO : IoWriter W}.

(** [type Handler func(w *response.Writer, req *request.Request)] *)
Definition Handler : Type :=
  @Writer W → option request.Request
  → @Writer W * list tcplistener.LogLine.

(** [func (s *Server) handle(conn net.Conn)]: the connection is read
    through [reader] and written through [io]; the result is the write side
    after the call and what the handler logged.  The outer [None] is
    [parse] cut short. *)
Definition handle (handler : Handler) (reader : request.Reader) (io : W)
  : option (W * list tcplistener.LogLine) :=
  match request.RequestFromReader reader with
  | None => None
  | Some (_, Some err) => Some (io, [])
  | Some (req, None) =>
      let '(w, logged) := handler (NewWriter io) req in
      Some (writer w, logged)
  end.

End with_conn.
End server.

(** ** internal/request/request_test.go: the reader of the tests *)

Module request_test.
Import request.

(** [type chunkReader struct]; [numBytesPerRead] and [pos] are of Go's
    type [int]. *)
Record chunkReader : Type := mkChunkReader {
  data : string;
  numBytesPerRead : Z;
  pos : Z
}.

Section with_int.
(** Go's [int] has [intSize] bits, 32 or 64 by platform. *)
Context (intSize : Z).

(** The value of an [int] expression: sums wrap around. *)
Definition wrap (z : Z) : Z :=
  ((z + 2 ^ (intSize - 1)) `mod` 2 ^ intSize - 2 ^ (intSize - 1))%Z.

(** [func (cr *chunkReader) Read(p []byte) (n int, err error)] for a [p]
    of [lenp] bytes: the reader after the call, the [n] bytes copied into
    [p], and the error.  The slice expression [cr.data[cr.pos:endIndex]]
    panics unless [0 <= cr.pos <= endIndex <= len(cr.data)]. *)
Definition Read (cr : chunkReader) (lenp : nat)
  : chunkReader * (bytes * option error) :=
  let len := Z.of_nat (length (Bytes (data cr))) in
  if bool_decide (len ≤ pos cr)%Z
  then (cr, ([], Some io_EOF))
  else
    let endIndex := (wrap (pos cr + numBytesPerRead cr) `min` len)%Z in
    if bool_decide (0 ≤ pos cr ∧ pos cr ≤ endIndex)%Z
    then
      let src := take (Z.to_nat (endIndex - pos cr))
                      (drop (Z.to_nat (pos cr)) (Bytes (data cr))) in
      let n := lenp `min` length src in
      (mkChunkReader (data cr) (numBytesPerRead cr)
                     (wrap (pos cr + Z.of_nat n)),
       (take n src, None))
    else (cr, ([], Some (RuntimePanic "slice bounds out of range"))).

(** What the calls [reader.Read(chunk)] of [RequestFromReader], with its
    [chunk] of [chunkSize] bytes, return before the first [(0, io.EOF)];
    [None] when that is not met within [fuel] calls. *)
Fixpoint reads (fuel : nat) (cr : chunkReader) : option Reader :=
  match fuel with
  | 0 => None
  | S fuel' =>
      let '(cr', (b, err)) := Read cr chunkSize in
      if bool_decide (b = [] ∧ err = Some io_EOF) then Some []
      else cons (b, err) <$> reads fuel' cr'
  end.

End with_int.
End request_test.

(** ** cmd/tcplistener, the first revision: the lines of a connection *)

Module tcplistener_lines.
Import request.

(** [bytes.IndexByte] *)
Fixpoint IndexByte (b : bytes) (c : byte) : option nat :=
  match b with
  | [] => None
  | x :: b' => if bool_decide (x = c) then Some 0 else S <$> IndexByte b' c
  end.

(** The inner loop of [getLinesChannel], from the text [line] gathered so
    far (the variable [str] of the source): the lines sent on the channel,
    and [str] and [chunk] after the loop.  [None] is the loop cut short. *)
Fixpoint sendLines (fuel : nat) (line : string) (chunk : bytes)
  : option (list string * string * bytes) :=
  match IndexByte chunk LF with
  | None => Some ([], line, chunk)
  | Some i =>
      match fuel with
      | 0 => None
      | S fuel' =>
          match sendLines fuel' "" (drop (i + 1) chunk) with
          | None => None
          | Some (sent, line', chunk') =>
              Some ((line +:+ str (take i chunk)) :: sent, line', chunk')
          end
      end
  end.

(** The goroutine of [getLinesChannel], from the read loop on: the lines
    sent on the channel before it is closed, and the errors printed after
    "Read error:".  Each read is of at most eight bytes; the pauses
    between the lines are left out. *)
Fixpoint readLines (line : string) (f : Reader)
  : option (list string * list error) :=
  let atBreak :=
    if bool_decide (String.length line ≠ 0) then [line] else [] in
  match f with
  | [] => Some (atBreak, [])
  | (_, Some err) :: _ =>
      Some (atBreak, if bool_decide (err ≠ io_EOF) then [err] else [])
  | (data, None) :: f' =>
      match sendLines (length data) line data with
      | None => None
      | Some (sent, line, chunk) =>
          match readLines (line +:+ str chunk) f' with
          | None => None
          | Some (sent', printed) => Some (sent ++ sent', printed)
          end
      end
  end.

(** [func getLinesChannel(f io.ReadCloser) <-chan string]: what the
    channel carries, and what is printed. *)
Definition getLinesChannel (f : Reader)
  : option (list string * list error) :=
  readLines "" f.

End tcplistener_lines.

(** * Vocabulary of the further properties *)

Module more_statements.
Import headers request.

(** A writer that follows a script: each [Write] takes the next entry of
    the script and fails with the error it names, writing nothing, or
    records its argument; once the script is used up every [Write]
    succeeds. *)
Definition scriptedWriter
  : response.IoWriter (list bytes * list (option error)) :=
  {| response.Write w p :=
       match w.2 with
       | Some e :: script => ((w.1, script), (0, Some e))
       | None :: script => ((w.1 ++ [p], script), (length p, None))
       | [] => ((w.1 ++ [p], []), (length p, None))
       end |}.

(** An ASCII capital letter. *)
Definition isUpper (b : byte) : bool :=
  ((ord "A" <=? ord b) && (ord b <=? ord "Z"))%N.

(** The request line [method SP target SP "HTTP/1.1"], without its CRLF. *)
Definition requestLine (method target : bytes) : bytes :=
  method ++ Bytes " " ++ target ++ Bytes " HTTP/1.1".

(** The errors of the two line parsers. *)
Definition parseError (e : error) : Prop :=
  e ∈ [ErrNoColon; ErrEmptyKey; ErrSpaceBeforeColon; ErrInvalidCharInKey;
       ERROR_PARSING_METHOD_IN_REQUEST_LINE;
       ERROR_PARSING_TARGET_IN_REQUEST_LINE]
  ∨ (∃ version, e = ErrorInvalidVersion version)
  ∨ (∃ method, e = ErrorInvalidMethod method).

(** The errors that a reader returns in its reads. *)
Definition readerErrors (reader : Reader) : list error :=
  omap snd reader.

(** A field line with optional white space: [k] spaces before the name,
    white space [ws1] and [ws2] around the value [v]. *)
Definition paddedFieldLine (k : nat) (name ws1 v ws2 : bytes) : bytes :=
  replicate k " "%char ++ name ++ Bytes ":" ++ ws1 ++ v ++ ws2 ++ CRLF.

(** A value that is empty, or begins and ends with an ASCII byte that is
    not white space. *)
Definition trimmedValue (v : bytes) : bool :=
  match head v, last v with
  | Some a, Some z =>
      isASCII a && negb (asciiSpace a) && isASCII z && negb (asciiSpace z)
  | _, _ => true
  end.

(** Every key of the map is made of token characters. *)
Definition tokenKeys (h : gmap string string) : Prop :=
  ∀ k v, h !! k = Some v → forallb isTokenChar (Bytes k) = true.

End more_statements.
Export more_statements.

Module writer_more_statements.
Import response.

(** The line ["k: v\r\n"] that [WriteHeaders] writes for an entry. *)
Definition headerLine (kv : string * string) : bytes :=
  Bytes (kv.1 +:+ ": " +:+ kv.2 +:+ crlf).

(** The reason phrase that goes with a status code: the three codes that
    the package names have one, every other code has the empty phrase. *)
Definition reasonPhrase (statusCode : Z) : string :=
  if bool_decide (statusCode = 200%Z) then "OK"
  else if bool_decide (statusCode = 400%Z) then "Bad Request"
  else if bool_decide (statusCode = 500%Z) then "Internal Server Error"
  else "".

Definition isStatusLineCall (c : Call) : bool :=
  match c with CallWriteStatusLine _ => true | _ => false end.

Definition isHeadersCall (c : Call) : bool :=
  match c with CallWriteHeaders _ => true | _ => false end.

Section with_writer.
Context {W : Type} `{IO : IoWriter W}.
Context (rangeOrder : gmap string string → list (string * string)).

(** The number of calls of the kind [kind] that return no error, in the
    sequence [cs] run from the writer [w]. *)
Fixpoint successes (kind : Call → bool) (w : Writer) (cs : list Call)
  : nat :=
  match cs with
  | [] => 0
  | c :: cs' =>
      let '(w', err) := call rangeOrder w c in
      (if kind c && bool_decide (err = None) then 1 else 0)
      + successes kind w' cs'
  end.

End with_writer.

(** The status line and the page that the handler of the server binary
    answers for a request target. *)
Definition answerFor (path : string) : string * string :=
  if bool_decide (path = "/400")
  then ("HTTP/1.1 400 Bad Request" +:+ crlf, tcplistener.html400)
  else if bool_decide (path = "/500")
  then ("HTTP/1.1 500 Internal Server Error" +:+ crlf, tcplistener.html500)
  else ("HTTP/1.1 200 OK" +:+ crlf, tcplistener.html200).

(** The header map of that answer: the three default entries and the
    entry that [Set] adds. *)
Definition answerHeaders (body : string) : gmap string string :=
  <["content-type" := "text/html"]>
    (<["Content-Type" := "text/plain"]>
       (<["Connection" := "close"]>
          (<["Content-Length" := pretty (Z.of_nat (String.length body))]>
             ∅))).

(** All that the handler writes for a request target, [Write] by [Write],
    with the header map visited in the order [entries]. *)
Definition answerWrites (path : string) (entries : list (string * string))
  : list bytes :=
  Bytes (answerFor path).1
  :: (headerLine <$> entries) ++ [CRLF; Bytes (answerFor path).2].

(** What the handler logs, and the phase in which the writer stays, when
    the [Write] number [i] (from zero) is the one that fails, [m] being
    the number of header lines. *)
Definition failurePhase (m i : nat) : string * response.WriterState :=
  if bool_decide (i = 0)
  then ("Failed to write status: ", response.StateStatusPending)
  else if bool_decide (i ≤ m + 1)
  then ("Failed to write headers: ", response.StateHeadersPending)
  else ("Failed to write body: ", response.StateBodyPending).

End writer_more_statements.
Export writer_more_statements.

Module driver_more_statements.
Import headers request.

(** A request in bytes: the request line, the field lines [name ":" raw],
    the blank line. *)
Definition requestBytes (method target : bytes)
    (fields : list (bytes * bytes)) : bytes :=
  requestLine method target ++ CRLF
  ++ concat ((λ f, fieldLine f.1 f.2) <$> fields) ++ CRLF.

(** A request line as the parser leaves it in a request: never set, or
    version "1.1", a method of capital letters and a target without
    space. *)
Definition lineInvariant (l : RequestLine) : Prop :=
  l = mkRequestLine "" "" ""
  ∨ (HttpVersion l = "1.1"
     ∧ forallb isUpper (Bytes (Method l)) = true
     ∧ " "%char ∉ Bytes (RequestTarget l)).

(** The invariant of a request under construction. *)
Definition requestInvariant (r : Request) : Prop :=
  lineInvariant (Line r) ∧ ∀ h, Headers r = Some h → tokenKeys h.

End driver_more_statements.
Export driver_more_statements.

Module lines_statements.

(** The text of the lines [ls], each followed by a line feed. *)
Definition terminated (ls : list bytes) : bytes :=
  concat ((λ l, l ++ [LF]) <$> ls).

(** The lines that end within [data], after the text [line] gathered
    before it, and the text gathered after the last of them. *)
Fixpoint splitLines (line : string) (data : bytes) : list string * string :=
  match data with
  | [] => ([], line)
  | b :: data' =>
      if bool_decide (b = LF)
      then (line :: (splitLines "" data').1, (splitLines "" data').2)
      else splitLines (line +:+ str [b]) data'
  end.

End lines_statements.
Export lines_statements.

(** * Facts about the [bytes] functions *)

Section bytes_facts.
Implicit Types s sep e : bytes.

Lemma Index_cons c s sep :
  Index (c :: s) sep
  = if HasPrefix (c :: s) sep then Some 0 else S <$> Index s sep.
Proof. done. Qed.

Lemma HasPrefix_length s sep :
  HasPrefix s sep = true → length sep ≤ length s.
Proof.
  revert s. induction sep as [|p sep IH]; intros [|c s]; simpl;
    try done; try lia.
  intros [_ Hp]%andb_prop. specialize (IH _ Hp). lia.
Qed.

Lemma HasPrefix_app s sep e :
  length sep ≤ length s → HasPrefix (s ++ e) sep = HasPrefix s sep.
Proof.
  revert s. induction sep as [|p sep IH]; intros [|c s]; simpl;
    try done; intros Hl; try lia.
  rewrite IH; [done | lia].
Qed.

Lemma Index_prefix s sep : HasPrefix s sep = true → Index s sep = Some 0.
Proof. intros Hp. destruct s; simpl; by rewrite Hp. Qed.

Lemma HasPrefix_spec s sep :
  HasPrefix s sep = true ↔ ∃ post, s = sep ++ post.
Proof.
  revert s. induction sep as [|p sep IH]; intros s; simpl.
  - split; [by exists s|done].
  - destruct s as [|c s]; [split; [done|by intros [? [=]]]|].
    rewrite andb_true_iff, bool_decide_eq_true, IH. split.
    + intros [-> [post ->]]. by exists post.
    + intros [post [= -> ->]]. eauto.
Qed.

(** [Index] finds an occurrence, and the first one; it answers [None]
    exactly when there is none. *)
Lemma Index_Some_spec s sep i :
  Index s sep = Some i →
  (∃ post, s = take i s ++ sep ++ post)
  ∧ ∀ pre post, s = pre ++ sep ++ post → i ≤ length pre.
Proof.
  revert i. induction s as [|c s IH]; intros i.
  - simpl. destruct (HasPrefix [] sep) eqn:Hp; [|done].
    intros [= <-]. split; [by apply HasPrefix_spec|]. intros; lia.
  - rewrite Index_cons. destruct (HasPrefix (c :: s) sep) eqn:Hp.
    + intros [= <-]. split; [by apply HasPrefix_spec|]. intros; lia.
    + destruct (Index s sep) as [j|] eqn:Hj; [|done]. intros [= <-].
      destruct (IH j eq_refl) as [[post Hpost] Hmin]. split.
      * exists post. simpl. by rewrite <-Hpost.
      * intros [|d pre] post' Heq; simpl in *.
        -- assert (HasPrefix (c :: s) sep = true) as Hp'
             by (apply HasPrefix_spec; eauto).
           congruence.
        -- injection Heq as -> Heq. specialize (Hmin _ _ Heq). lia.
Qed.

Lemma Index_None_spec s sep :
  Index s sep = None ↔ ∀ pre post, s ≠ pre ++ sep ++ post.
Proof.
  split.
  - intros Hn pre. revert s Hn.
    induction pre as [|d pre IH]; intros s Hn post ->.
    + assert (HasPrefix (sep ++ post) sep = true) as Hp
        by (apply HasPrefix_spec; eauto).
      by rewrite app_nil_l, (Index_prefix _ _ Hp) in Hn.
    + change ((d :: pre) ++ sep ++ post)
        with (d :: (pre ++ sep ++ post)) in Hn.
      rewrite Index_cons in Hn.
      destruct (HasPrefix _ sep); [done|].
      destruct (Index (pre ++ sep ++ post) sep) eqn:Hi; [done|].
      by eapply IH.
  - intros Hno. destruct (Index s sep) as [i|] eqn:Hi; [|done].
    apply Index_Some_spec in Hi as [[post Hpost] _].
    by apply Hno in Hpost.
Qed.

Lemma Index_bound s sep i :
  Index s sep = Some i → i + length sep ≤ length s.
Proof.
  revert i. induction s as [|c s IH]; intros i; simpl.
  - destruct (HasPrefix [] sep) eqn:Hp; [|done].
    intros [= <-]. apply HasPrefix_length in Hp. simpl in *. lia.
  - destruct (HasPrefix (c :: s) sep) eqn:Hp.
    + intros [= <-]. apply HasPrefix_length in Hp. simpl in *. lia.
    + destruct (Index s sep) as [j|] eqn:Hj; [|done].
      intros [= <-]. specialize (IH _ eq_refl). lia.
Qed.

(** An occurrence found in [s] is still the first one after more bytes
    arrive. *)
Lemma Index_app s sep e i :
  Index s sep = Some i → Index (s ++ e) sep = Some i.
Proof.
  revert i. induction s as [|c s IH]; intros i Hi.
  - pose proof (Index_bound _ _ _ Hi) as Hb. simpl in Hb.
    destruct sep; [|simpl in Hb; lia].
    destruct i; [|lia]. by destruct e.
  - pose proof (Index_bound _ _ _ Hi) as Hb.
    simpl in Hi. change ((c :: s) ++ e) with (c :: (s ++ e)).
    cbn [Index]. change (c :: (s ++ e)) with ((c :: s) ++ e).
    destruct (HasPrefix (c :: s) sep) eqn:Hp.
    + rewrite HasPrefix_app, Hp; [done|]. by apply HasPrefix_length.
    + destruct (Index s sep) as [j|] eqn:Hj; [|done].
      injection Hi as <-.
      rewrite HasPrefix_app, Hp by (simpl in *; lia).
      by rewrite (IH _ eq_refl).
Qed.

Lemma Cut_app s sep e before after :
  Cut s sep = (before, after, true) →
  Cut (s ++ e) sep = (before, after ++ e, true).
Proof.
  unfold Cut. destruct (Index s sep) as [i|] eqn:Hi; [|done].
  intros [= <- <-]. rewrite (Index_app _ _ e _ Hi).
  pose proof (Index_bound _ _ _ Hi).
  rewrite take_app_le, drop_app_le by lia. done.
Qed.

Lemma Cut_found_length s sep before after :
  Cut s sep = (before, after, true) →
  length before + length sep ≤ length s ∧ Index s sep = Some (length before).
Proof.
  unfold Cut. destruct (Index s sep) as [i|] eqn:Hi; [|done].
  intros [= <- <-]. pose proof (Index_bound _ _ _ Hi).
  rewrite length_take. split; [lia|]. f_equal. lia.
Qed.

Lemma Cut_not_found s sep before after :
  Cut s sep = (before, after, false) → Index s sep = None.
Proof. unfold Cut. by destruct (Index s sep). Qed.

(** A line without CRLF, followed by CRLF: the first CRLF is the
    terminator, also when the line ends in a carriage return. *)
Lemma Index_CRLF_terminator s e :
  Index s CRLF = None → Index (s ++ CRLF ++ e) CRLF = Some (length s).
Proof.
  induction s as [|c s IH]; [done|].
  change ((c :: s) ++ CRLF ++ e) with (c :: (s ++ CRLF ++ e)).
  rewrite !Index_cons.
  destruct (HasPrefix (c :: s) CRLF) eqn:Hp; [done|].
  destruct (Index s CRLF) eqn:Hi; [done|]. intros _.
  rewrite (IH eq_refl).
  replace (HasPrefix (c :: s ++ CRLF ++ e) CRLF) with false; [done|].
  destruct s as [|d s]; simpl in *; [|done].
  by destruct (bool_decide (c = CR)).
Qed.

(** A one-byte separator that does not occur before its first position. *)
Lemma Index_byte s c e :
  c ∉ s → Index (s ++ c :: e) [c] = Some (length s).
Proof.
  induction s as [|d s IH]; intros Hc.
  - simpl. by rewrite bool_decide_eq_true_2.
  - apply not_elem_of_cons in Hc as [Hd Hc].
    change ((d :: s) ++ c :: e) with (d :: (s ++ c :: e)). cbn [Index].
    simpl. rewrite bool_decide_eq_false_2 by congruence. simpl.
    by rewrite (IH Hc).
Qed.

Lemma Cut_byte s c e :
  c ∉ s → Cut (s ++ c :: e) [c] = (s, e, true).
Proof.
  intros Hc. unfold Cut. rewrite (Index_byte _ _ _ Hc).
  rewrite take_app_length. simpl.
  rewrite drop_app_ge by lia.
  replace (length s + 1 - length s) with 1 by lia. done.
Qed.

Lemma Cut_CRLF_terminator s e :
  Index s CRLF = None → Cut (s ++ CRLF ++ e) CRLF = (s, e, true).
Proof.
  intros Hs. unfold Cut. rewrite (Index_CRLF_terminator _ _ Hs).
  rewrite take_app_length, drop_app_ge by lia.
  replace (length s + length CRLF - length s) with 2 by (simpl; lia).
  done.
Qed.

End bytes_facts.

(** * The two line parsers *)

Section line_parsers.
Context `{U : UnicodeTables}.
Import headers request.

Local Ltac split_parse :=
  repeat (case_match; simplify_eq/=; try done).

Lemma parseRequestLine_no_CRLF (data : bytes) :
  Index data CRLF = None → parseRequestLine data = (None, 0, data, None).
Proof. intros Hi. unfold parseRequestLine, Cut. by rewrite Hi. Qed.

Lemma Parse_no_CRLF (h : gmap string string) (data : bytes) :
  Index data CRLF = None → Parse h data = (h, (0, false, None)).
Proof. intros Hi. unfold Parse. by rewrite Hi. Qed.

(** C7. A slice without CRLF is "insufficient data" for both parsers: the
    request-line parser returns no request line, zero bytes and no error,
    the header-field parser returns zero bytes, done = false and no error,
    and leaves the header map as it was. *)
Theorem no_CRLF_is_insufficient_data (h : gmap string string) (data : bytes) :
  Index data CRLF = None →
  parseRequestLine data = (None, 0, data, None)
  ∧ Parse h data = (h, (0, false, None)).
Proof.
  intros Hi. split;
    [by apply parseRequestLine_no_CRLF | by apply Parse_no_CRLF].
Qed.

(** C9. [Parse] is atomic on failure: whenever it returns an error, the
    error is one of NoColon, EmptyKey, SpaceBeforeColon, InvalidCharInKey,
    zero bytes are reported consumed, done is false, and the header map is
    the map of before the call. *)
Theorem Parse_atomic_on_failure (h h' : gmap string string) (data : bytes)
    (n : nat) (done : bool) (e : error) :
  Parse h data = (h', (n, done, Some e)) →
  n = 0 ∧ done = false ∧ h' = h
  ∧ e ∈ [ErrNoColon; ErrEmptyKey; ErrSpaceBeforeColon; ErrInvalidCharInKey].
Proof.
  unfold Parse. intros Hp.
  split_parse; repeat split; set_solver.
Qed.

(** What [Parse] returns is bounded by the slice it was given. *)
Lemma Parse_bound (h h' : gmap string string) (data : bytes) n done err :
  Parse h data = (h', (n, done, err)) → n ≤ length data.
Proof.
  unfold Parse. intros Hp.
  destruct (Index data CRLF) as [idx|] eqn:Hi.
  - apply Index_bound in Hi. simpl in Hi.
    split_parse; lia.
  - simplify_eq. lia.
Qed.

(** Once the CRLF is in the slice, later bytes change nothing. *)
Lemma Parse_app (h : gmap string string) (data e : bytes) idx :
  Index data CRLF = Some idx → Parse h (data ++ e) = Parse h data.
Proof.
  intros Hi. unfold Parse. rewrite (Index_app _ _ e _ Hi), Hi.
  apply Index_bound in Hi. rewrite take_app_le by lia. done.
Qed.

Lemma parseRequestLine_bound data rl n rest err :
  parseRequestLine data = (rl, n, rest, err) → n ≤ length data.
Proof.
  unfold parseRequestLine.
  destruct (Cut data CRLF) as [[line restOfMsg] found] eqn:Hc.
  destruct found; simpl.
  - apply Cut_found_length in Hc as [Hl _]. simpl in Hl.
    intros Hp. split_parse; lia.
  - intros [= <- <- <- <-]. lia.
Qed.

Lemma parseRequestLine_app data e idx rl n rest err :
  Index data CRLF = Some idx →
  parseRequestLine data = (rl, n, rest, err) →
  ∃ rest', parseRequestLine (data ++ e) = (rl, n, rest', err).
Proof.
  intros Hi. unfold parseRequestLine.
  destruct (Cut data CRLF) as [[line restOfMsg] found] eqn:Hc.
  destruct found; [|by apply Cut_not_found in Hc; congruence].
  rewrite (Cut_app _ _ e _ _ Hc). simpl.
  intros Hp. split_parse; eauto.
Qed.

(** A request line is returned exactly when bytes are consumed. *)
Lemma parseRequestLine_pointer data rl n rest err :
  parseRequestLine data = (rl, n, rest, err) →
  (err = None ∧ n ≠ 0 → is_Some rl) ∧ (is_Some err → n = 0).
Proof.
  unfold parseRequestLine. intros Hp.
  split_parse; (split; [intros [??] | intros [??]]); simplify_eq/=; eauto.
Qed.

End line_parsers.

Section request_line.
Import request.

(** C6, as the code has it.  For a complete, CRLF-terminated request line
    that splits into method, target and version on its two spaces, where
    the method has a byte outside 'A'-'Z': the version is compared with
    "HTTP/1.1" first, so the parser returns InvalidMethod with the raw
    method when the version part is exactly "HTTP/1.1", and
    UnsupportedVersion with the raw version part otherwise. *)
Theorem parseRequestLine_invalid_method (method target version rest : bytes) :
  " "%char ∉ method →
  " "%char ∉ target →
  Index (method ++ Bytes " " ++ target ++ Bytes " " ++ version) CRLF = None →
  Exists outside_A_Z method →
  let data :=
    (method ++ Bytes " " ++ target ++ Bytes " " ++ version) ++ CRLF ++ rest in
  parseRequestLine data
  = (None, 0, data,
     Some (if bool_decide (str version = "HTTP/1.1")
           then ErrorInvalidMethod (str method)
           else ErrorInvalidVersion (str version))).
Proof.
  intros Hm Ht Hline Hbad data. unfold parseRequestLine.
  subst data. rewrite (Cut_CRLF_terminator _ _ Hline). simpl negb. cbv iota.
  change (Bytes " ") with [" "%char]. simpl app.
  rewrite (Cut_byte _ _ _ Hm). simpl negb. cbv iota beta.
  rewrite (Cut_byte _ _ _ Ht). simpl negb. cbv iota beta.
  case_bool_decide as Hv; simpl negb; cbv iota; [|done].
  assert (version = Bytes "HTTP/1.1") as ->.
  { unfold str in Hv. rewrite <-(list_ascii_of_string_of_list_ascii version).
    by rewrite Hv. }
  replace (Cut (Bytes "HTTP/1.1") (Bytes "/"))
    with (Bytes "HTTP", Bytes "1.1", true) by (by vm_compute).
  simpl negb. cbv iota beta.
  replace (existsb _ method) with true; [done|].
  symmetry. apply existsb_exists. apply Exists_exists in Hbad as (b & Hb & Hout).
  exists b. split; [by apply list_elem_of_In|].
  apply orb_true_iff. destruct Hout; [left|right]; by apply N.ltb_lt.
Qed.

End request_line.

(** * One step of the state machine: [parseSingle] *)

Section parseSingle_facts.
Context `{U : UnicodeTables}.
Import request.

Lemma touch_state r : state (touch r) = state r.
Proof. unfold touch. by destruct (state r) eqn:E. Qed.

Lemma touch_done r : state r = requestStateDone → touch r = r.
Proof. unfold touch. by intros ->. Qed.

Lemma Parse_zero (h h' : gmap string string) data done :
  headers.Parse h data = (h', (0, done, None)) → h' = h.
Proof.
  unfold headers.Parse. intros Hp.
  repeat (case_match; simplify_eq/=; try done); lia.
Qed.

Lemma parseSingle_no_CRLF r p :
  Index p CRLF = None → parseSingle r p = (touch r, (0, None)).
Proof.
  intros Hi. unfold parseSingle, touch.
  destruct (state r); [by rewrite (parseRequestLine_no_CRLF _ Hi)|done|].
  rewrite (Parse_no_CRLF _ _ Hi).
  by destruct (Headers r).
Qed.

Lemma parseSingle_app r p e idx :
  Index p CRLF = Some idx → parseSingle r (p ++ e) = parseSingle r p.
Proof.
  intros Hi. unfold parseSingle. destruct (state r); [|done|].
  - destruct (parseRequestLine p) as [[[rl n] rest] err] eqn:Hp.
    destruct (parseRequestLine_app _ e _ _ _ _ _ Hi Hp) as [rest' ->].
    done.
  - by rewrite (Parse_app _ _ _ _ Hi).
Qed.

Lemma parseSingle_bound r p r' n err :
  parseSingle r p = (r', (n, err)) → n ≤ length p.
Proof.
  unfold parseSingle. destruct (state r).
  - destruct (parseRequestLine p) as [[[rl m] rest] e] eqn:Hp.
    apply parseRequestLine_bound in Hp.
    intros Hs. repeat (case_match; simplify_eq/=; try done); lia.
  - intros [= <- <- <-]. lia.
  - destruct (headers.Parse _ p) as [hs' [[m done] e]] eqn:Hp.
    apply Parse_bound in Hp.
    intros Hs. repeat (case_match; simplify_eq/=; try done); lia.
Qed.

Lemma parseSingle_zero r p r' :
  parseSingle r p = (r', (0, None)) → r' = touch r.
Proof.
  unfold parseSingle, touch. destruct (state r) eqn:Hst.
  - intros Hs. repeat (case_match; simplify_eq/=; try done).
  - by intros [= <-].
  - destruct (headers.Parse _ p) as [hs' [[m done] e]] eqn:Hp.
    intros Hs. destruct e; [done|].
    case_bool_decide as Hm.
    + subst m. apply Parse_zero in Hp. simplify_eq/=.
      by destruct (Headers r).
    + destruct done; simplify_eq/=.
Qed.

Lemma parseSingle_touch r p : parseSingle (touch r) p = parseSingle r p.
Proof.
  unfold parseSingle, touch. destruct (state r) eqn:Hst; simpl;
    rewrite ?Hst; done.
Qed.

(** A step that consumed bytes or failed saw a whole line: bytes arriving
    later do not change it. *)
Lemma parseSingle_settled r p e r' n err :
  parseSingle r p = (r', (n, err)) →
  n ≠ 0 ∨ is_Some err →
  parseSingle r (p ++ e) = (r', (n, err)).
Proof.
  intros Hs Hne. destruct (Index p CRLF) as [idx|] eqn:Hi.
  - by rewrite (parseSingle_app _ _ _ _ Hi).
  - rewrite (parseSingle_no_CRLF _ _ Hi) in Hs. simplify_eq.
    destruct Hne as [?|[? ?]]; done.
Qed.

End parseSingle_facts.

(** * The loop of [parse] *)

Section parse_facts.
Context `{U : UnicodeTables}.
Import request.

Lemma parse_loop_fuel f1 f2 r p t :
  length p - t ≤ f1 → length p - t ≤ f2 →
  parse_loop f1 r p t = parse_loop f2 r p t.
Proof.
  revert f2 r t. induction f1 as [|f1 IH]; intros [|f2] r t H1 H2; simpl;
    repeat case_bool_decide; try done; try lia.
  destruct (parseSingle r (drop t p)) as [r' [n [e|]]]; [done|].
  case_bool_decide; [done|]. apply IH; lia.
Qed.

Lemma parse_eq r p : parse r p = parse_from r p 0.
Proof. unfold parse, parse_from. by rewrite Nat.sub_0_r. Qed.

Lemma parse_from_unfold r p t :
  parse_from r p t
  = if bool_decide (state r = requestStateDone) then Some (r, (t, None))
    else if bool_decide (length p ≤ t) then Some (r, (t, None))
    else
      let '(r', (n, err)) := parseSingle r (drop t p) in
      match err with
      | Some e => Some (r', (t, Some e))
      | None =>
          if bool_decide (n = 0) then Some (r', (t, None))
          else parse_from r' p (t + n)
      end.
Proof.
  unfold parse_from. destruct (length p - t) as [|k] eqn:Hk; simpl;
    repeat case_bool_decide; try done; try lia.
  destruct (parseSingle r (drop t p)) as [r' [n [e|]]]; [done|].
  case_bool_decide; [done|]. apply parse_loop_fuel; lia.
Qed.

Lemma parse_from_done r p t :
  state r = requestStateDone → parse_from r p t = Some (r, (t, None)).
Proof. intros Hd. rewrite parse_from_unfold. by rewrite bool_decide_eq_true_2. Qed.

Lemma parse_from_touch r p t :
  t < length p → parse_from (touch r) p t = parse_from r p t.
Proof.
  intros Ht.
  rewrite !(parse_from_unfold _ p t), touch_state, parseSingle_touch.
  case_bool_decide as Hd; [by rewrite touch_done|].
  case_bool_decide; [lia|done].
Qed.

(** The loop always returns: [length p - t] turns are enough. *)
Lemma parse_from_total k : ∀ r p t,
  length p - t ≤ k → is_Some (parse_from r p t).
Proof.
  induction k as [|k IH]; intros r p t Hk; rewrite parse_from_unfold;
    repeat case_bool_decide; try done; try lia.
  destruct (parseSingle r (drop t p)) as [r' [n [e|]]]; [done|].
  case_bool_decide; [done|]. apply IH. lia.
Qed.

Lemma parse_from_bound k : ∀ r p t r' n err,
  length p - t ≤ k → t ≤ length p →
  parse_from r p t = Some (r', (n, err)) → t ≤ n ≤ length p.
Proof.
  induction k as [|k IH]; intros r p t r1 n1 err1 Hk Ht;
    rewrite parse_from_unfold;
    repeat case_bool_decide; try (intros [= <- <- <-]; lia); try lia.
  destruct (parseSingle r (drop t p)) as [r' [n [e|]]] eqn:Hs;
    [intros [= <- <- <-]; lia|].
  apply parseSingle_bound in Hs. rewrite length_drop in Hs.
  case_bool_decide; [intros [= <- <- <-]; lia|].
  intros Hp. apply IH in Hp; lia.
Qed.

(** Bytes that arrive after a call of [parse]: an error stays the error;
    otherwise parsing the longer slice is parsing on from where the call
    stopped, with the request it left. *)
Lemma parse_from_app k : ∀ r p t c r1 n err,
  length p - t ≤ k → t ≤ length p →
  parse_from r p t = Some (r1, (n, err)) →
  parse_from r (p ++ c) t
  = match err with
    | Some e => Some (r1, (n, Some e))
    | None => parse_from r1 (p ++ c) n
    end.
Proof.
  induction k as [|k IH]; intros r p t c r1 n1 err1 Hk Ht;
    rewrite (parse_from_unfold r p t);
    repeat case_bool_decide; try (by intros [= <- <- <-]); try lia.
  destruct (parseSingle r (drop t p)) as [r' [n err]] eqn:Hs.
  pose proof (parseSingle_bound _ _ _ _ _ Hs) as Hb.
  rewrite length_drop in Hb.
  assert (drop t (p ++ c) = drop t p ++ c) as Hdrop
    by (by rewrite drop_app_le by lia).
  destruct err as [e|].
  - intros [= <- <- <-]. rewrite parse_from_unfold.
    rewrite !bool_decide_eq_false_2 by (rewrite ?length_app; done || lia).
    rewrite Hdrop, (parseSingle_settled _ _ _ _ _ _ Hs); [done|].
    right; eauto.
  - case_bool_decide as Hn.
    + intros [= <- <- <-]. subst n. apply parseSingle_zero in Hs as ->.
      rewrite parse_from_touch; [done|]. rewrite length_app. lia.
    + intros Hp. rewrite (parse_from_unfold r (p ++ c) t).
      rewrite !bool_decide_eq_false_2 by (rewrite ?length_app; done || lia).
      rewrite Hdrop, (parseSingle_settled _ _ _ _ _ _ Hs) by (by left).
      rewrite bool_decide_eq_false_2 by done.
      apply IH; [lia|lia|done].
Qed.

Lemma parse_from_shift k : ∀ r p t,
  length p - t ≤ k → t ≤ length p →
  parse_from r p t = shift t <$> parse_from r (drop t p) 0.
Proof.
  induction k as [|k IH]; intros r p t Hk Ht;
    rewrite (parse_from_unfold r p t), (parse_from_unfold r (drop t p) 0);
    rewrite length_drop, drop_0;
    repeat case_bool_decide; try lia;
    try (by unfold shift; simpl; rewrite Nat.add_0_r).
  destruct (parseSingle r (drop t p)) as [r' [n err]] eqn:Hs.
  pose proof (parseSingle_bound _ _ _ _ _ Hs) as Hb.
  rewrite length_drop in Hb.
  destruct err as [e|]; [by unfold shift; simpl; rewrite Nat.add_0_r|].
  case_bool_decide; [by unfold shift; simpl; rewrite Nat.add_0_r|].
  rewrite (IH r' p (t + n)) by lia.
  rewrite (IH r' (drop t p) (0 + n)) by (rewrite ?length_drop; lia).
  rewrite drop_drop. simpl.
  destruct (parse_from r' (drop (t + n) p) 0) as [[r2 [m e2]]|]; [|done].
  unfold shift. simpl. do 3 f_equal. lia.
Qed.

End parse_facts.

Section parse_calls.
Context `{U : UnicodeTables}.
Import request.

Lemma parse_total_bounded r p :
  ∃ r' n err, parse r p = Some (r', (n, err)) ∧ n ≤ length p.
Proof.
  rewrite parse_eq.
  destruct (parse_from_total (length p) r p 0) as [[r' [n err]] Hp]; [lia|].
  exists r', n, err. split; [done|].
  apply (parse_from_bound (length p)) in Hp; lia.
Qed.

Lemma parse_bound r p r' n err :
  parse r p = Some (r', (n, err)) → n ≤ length p.
Proof.
  destruct (parse_total_bounded r p) as (?&?&?&Hp&?). rewrite Hp.
  by intros [= <- <- <-].
Qed.

Lemma parse_done r p :
  state r = requestStateDone → parse r p = Some (r, (0, None)).
Proof. intros Hd. rewrite parse_eq. by apply parse_from_done. Qed.

Lemma parse_app r p c r1 n err :
  parse r p = Some (r1, (n, err)) →
  parse r (p ++ c)
  = match err with
    | Some e => Some (r1, (n, Some e))
    | None => shift n <$> parse r1 (drop n p ++ c)
    end.
Proof.
  intros Hp. pose proof (parse_bound _ _ _ _ _ Hp) as Hn.
  rewrite parse_eq in Hp.
  rewrite parse_eq.
  rewrite (parse_from_app (length p) r p 0 c r1 n err) by (done || lia).
  destruct err; [done|].
  rewrite (parse_from_shift (length (p ++ c)))
    by (rewrite ?length_app; lia).
  by rewrite drop_app_le, parse_eq by lia.
Qed.

(** What [parse] leaves in the buffer is stable: parsing it again consumes
    nothing and changes nothing. *)
Lemma parse_stable r p r1 n :
  parse r p = Some (r1, (n, None)) →
  parse r1 (drop n p) = Some (r1, (0, None)).
Proof.
  intros Hp. pose proof (parse_app _ _ [] _ _ _ Hp) as Ha.
  rewrite !app_nil_r, Hp in Ha.
  destruct (parse r1 (drop n p)) as [[r2 [m e2]]|]; [|done].
  unfold shift in Ha. simpl in Ha. simplify_eq.
  do 3 f_equal. lia.
Qed.

End parse_calls.

(** * The driver: [RequestFromReader] *)

Section driver.
Context `{U : UnicodeTables}.
Import request.

Lemma with_state_done r :
  state r = requestStateDone → with_state r requestStateDone = r.
Proof. destruct r; simpl. by intros ->. Qed.

Lemma readLoop_done req buf rd :
  state req = requestStateDone → readLoop req buf rd = Some (Some req, None).
Proof. intros Hd. destruct rd; simpl; by rewrite bool_decide_eq_true_2. Qed.

(** End of stream: the loop stops and the request is returned as it is,
    marked Done. *)
Lemma readLoop_nil req buf :
  readLoop req buf []
  = Some (Some (with_state req requestStateDone), None).
Proof. simpl. case_bool_decide; [by rewrite with_state_done|done]. Qed.

Lemma readLoop_chunk req buf c rd :
  state req ≠ requestStateDone →
  readLoop req buf ((c, None) :: rd)
  = match parse req (buf ++ c) with
    | None => None
    | Some (req', (n, Some e)) => Some (None, Some e)
    | Some (req', (n, None)) => readLoop req' (drop n (buf ++ c)) rd
    end.
Proof.
  intros Hd. cbn [readLoop]. rewrite bool_decide_eq_false_2 by done.
  rewrite bool_decide_eq_false_2 by (by intros [[? [=]] _]).
  rewrite bool_decide_eq_false_2 by (by intros [_ [=]]).
  destruct (parse req (buf ++ c)) as [[req' [n [e|]]]|] eqn:Hp; try done.
  apply parse_bound in Hp. unfold reslice. case_bool_decide.
  - by rewrite bool_decide_eq_true_2.
  - by replace n with 0 by lia.
Qed.

Lemma deliver_cons c cs : deliver (c :: cs) = (c, None) :: deliver cs.
Proof. done. Qed.

(** The read loop always returns, whatever the reader delivers. *)
Lemma readLoop_total rd : ∀ req buf, is_Some (readLoop req buf rd).
Proof.
  induction rd as [|[data err] rd IH]; intros req buf; [by rewrite readLoop_nil|].
  cbn [readLoop]. repeat case_bool_decide; try done.
  all: destruct (parse_total_bounded req (buf ++ data))
         as (r' & n & e & -> & Hn); destruct e; try done;
       unfold reslice; repeat case_bool_decide; try done; lia.
Qed.

(** Chunks delivered one after the other are parsed like their
    concatenation delivered at once, from any state in which the buffer
    holds what an earlier call of [parse] left. *)
Lemma readLoop_concat cs : ∀ req buf,
  parse req buf = Some (req, (0, None)) →
  readLoop req buf (deliver cs) = readLoop req buf (deliver [concat cs]).
Proof.
  induction cs as [|c cs IH]; intros req buf Hst.
  - destruct (decide (state req = requestStateDone)) as [Hd|Hd];
      [by rewrite !readLoop_done|].
    rewrite (deliver_cons _ []), readLoop_chunk by done.
    simpl concat. rewrite app_nil_r, Hst, drop_0. done.
  - destruct (decide (state req = requestStateDone)) as [Hd|Hd];
      [by rewrite !readLoop_done|].
    rewrite !deliver_cons, !readLoop_chunk by done.
    simpl concat. rewrite app_assoc.
    destruct (parse_total_bounded req (buf ++ c)) as (r1 & n & e & Hp & Hn).
    rewrite (parse_app _ _ (concat cs) _ _ _ Hp), Hp.
    destruct e as [e|]; [done|].
    rewrite (IH _ _ (parse_stable _ _ _ _ Hp)).
    destruct (decide (state r1 = requestStateDone)) as [Hd1|Hd1].
    + rewrite readLoop_done, (parse_done _ _ Hd1) by done.
      simpl. by rewrite bool_decide_eq_true_2.
    + rewrite deliver_cons, readLoop_chunk by done.
      destruct (parse r1 (drop n (buf ++ c) ++ concat cs))
        as [[r2 [m [e2|]]]|]; by simpl.
Qed.

Lemma parse_newRequest_nil :
  parse newRequest [] = Some (newRequest, (0, None)).
Proof. done. Qed.

(** Two ways of cutting the same byte stream into reads give the same
    result, requests and errors alike. *)
Lemma RequestFromReader_same_bytes (cs1 cs2 : list bytes) :
  concat cs1 = concat cs2 →
  RequestFromReader (deliver cs1) = RequestFromReader (deliver cs2).
Proof.
  intros Hc. unfold RequestFromReader.
  rewrite (readLoop_concat cs1), (readLoop_concat cs2), Hc;
    auto using parse_newRequest_nil.
Qed.

Lemma concat_chunks fuel : ∀ k data,
  1 ≤ k → length data ≤ fuel → concat (chunks fuel k data) = data.
Proof.
  induction fuel as [|fuel IH]; intros k data Hk Hl.
  - destruct data; simpl in *; [done|lia].
  - destruct data as [|b data]; [done|].
    cbn [chunks concat]. rewrite IH, take_drop; [done|done|].
    rewrite length_drop. simpl in *. lia.
Qed.

End driver.

Section driver_claims.
Context `{U : UnicodeTables}.
Import request.

(** C3. Chunk-size invariance: the same bytes delivered in reads of
    [numBytesPerRead] >= 1 bytes give the result of parsing them in one
    piece: the same Request (request line, header map, state) or the same
    error; and the parse returns in both cases. *)
Theorem chunk_size_invariance (data : bytes) (numBytesPerRead : nat) :
  1 ≤ numBytesPerRead →
  ∃ result,
    RequestFromReader (chunkReader data numBytesPerRead) = Some result
    ∧ RequestFromReader (deliver [data]) = Some result.
Proof.
  intros Hk.
  destruct (readLoop_total (deliver [data]) newRequest []) as [result Hr].
  exists result. split; [|done]. rewrite <-Hr.
  apply RequestFromReader_same_bytes. simpl. rewrite app_nil_r.
  apply concat_chunks; [|done]. unfold chunkSize. lia.
Qed.

Lemma readLoop_end_of_stream (pre rd : Reader) : ∀ r0 b0 req buf,
  forallb dataRead pre = true →
  pending r0 b0 (fst <$> pre) = Some (req, buf) →
  state req ≠ requestStateDone
  ∧ readLoop r0 b0 (pre ++ ([], Some io_EOF) :: rd)
    = Some (Some (with_state req requestStateDone), None)
  ∧ readLoop r0 b0 pre
    = Some (Some (with_state req requestStateDone), None).
Proof.
  induction pre as [|[data err] pre IH]; intros r0 b0 req buf Hpre;
    cbn [fmap list_fmap pending]; case_bool_decide as Hd; try done.
  - intros [= <- <-]. split; [done|]. split; [|by rewrite readLoop_nil].
    simpl app. cbn [readLoop]. rewrite bool_decide_eq_false_2 by done.
    rewrite bool_decide_eq_false_2 by (intros [_ Hne]; by apply Hne).
    by rewrite bool_decide_eq_true_2.
  - cbn [forallb] in Hpre. apply andb_true_iff in Hpre as [Hrd Hpre].
    simpl fst. intros Hp.
    assert (∀ rest, readLoop r0 b0 ((data, err) :: rest)
                    = readLoop r0 b0 ((data, None) :: rest)) as Hdata.
    { intros rest. destruct err as [e|]; [|done]. simpl in Hrd.
      apply andb_true_iff in Hrd as [He Hne].
      apply bool_decide_eq_true in He as ->.
      apply bool_decide_eq_true in Hne.
      cbn [readLoop]. rewrite bool_decide_eq_false_2 by done.
      rewrite (bool_decide_eq_false_2 (_ ∧ Some io_EOF ≠ _))
        by (intros [_ Hn]; by apply Hn).
      rewrite (bool_decide_eq_false_2 (length data = 0 ∧ _))
        by (intros [Hl _]; by destruct data).
      rewrite (bool_decide_eq_false_2 (is_Some None ∧ _))
        by (by intros [[? [=]] _]).
      by rewrite (bool_decide_eq_false_2 (_ ∧ None = _))
        by (by intros [_ [=]]). }
    simpl app. rewrite !Hdata, !readLoop_chunk by done.
    destruct (parse r0 (b0 ++ data)) as [[r1 [n [e|]]]|]; try done.
    by eapply IH.
Qed.

(** C1, as the code has it.  A byte source signals end-of-stream by a
    [Read] of no bytes with io.EOF, or by bytes together with io.EOF,
    which are parsed first like those of any other read.  When the stream
    ends while the parser state is not Done, and the bytes delivered until
    then have been parsed without error, [RequestFromReader] returns no
    error: it returns the request parsed so far, header entries included,
    with its state set to Done, whatever the reader would return after the
    end-of-stream. *)
Theorem end_of_stream_returns_request_so_far (pre rd : Reader)
    (req : Request) (buf : bytes) :
  forallb dataRead pre = true →
  pending newRequest [] (fst <$> pre) = Some (req, buf) →
  state req ≠ requestStateDone
  ∧ RequestFromReader (pre ++ ([], Some io_EOF) :: rd)
    = Some (Some (with_state req requestStateDone), None)
  ∧ RequestFromReader pre
    = Some (Some (with_state req requestStateDone), None).
Proof. apply readLoop_end_of_stream. Qed.

(** C2, the code at the failing input.  The stream of scenario C (six body
    bytes, Content-Length 5) is parsed without error: the state machine
    goes from the header section straight to Done and returns a Request
    whose only trace of the body is the "content-length" entry. *)
Theorem scenario_C_returns_a_request :
  RequestFromReader (strings_NewReader scenarioC)
  = Some (Some (mkRequest (mkRequestLine "1.1" "/x" "POST")
                          (Some {[ "content-length" := "5" ]})
                          requestStateDone),
          None).
Proof. vm_compute. reflexivity. Qed.

(** C4. Scenario A parses to Method "GET", RequestTarget "/", HttpVersion
    "1.1" and the header map {"host": "localhost:42069"}; the request line
    and the header section take every byte of the stream, so that no byte
    is left for a body. *)
Theorem scenario_A_parses :
  RequestFromReader (strings_NewReader scenarioA)
  = Some (Some (mkRequest (mkRequestLine "1.1" "/" "GET")
                          (Some {[ "host" := "localhost:42069" ]})
                          requestStateDone),
          None)
  ∧ (snd <$> parse newRequest (Bytes scenarioA))
    = Some (length (Bytes scenarioA), None).
Proof. split; vm_compute; reflexivity. Qed.

End driver_claims.

Section driver_examples.
Import request.

(** C1, the counterexample: scenario F.  The stream closes in the middle of
    the second field line, with the parser in the header state; a Request
    with the "host" entry is returned, and no error. *)
Lemma scenario_F_returns_a_request :
  let partial := mkRequest (mkRequestLine "1.1" "/" "GET")
                           (Some {[ "host" := "localhost" ]})
                           requestStateParsingHeaders in
  pending (U := identityTables) newRequest [] [Bytes scenarioF]
  = Some (partial, Bytes "User-Age")
  ∧ RequestFromReader (U := identityTables) (strings_NewReader scenarioF)
    = Some (Some (with_state partial requestStateDone), None).
Proof. split; vm_compute; reflexivity. Qed.

End driver_examples.

(** * Repeated field names *)

Section repeated_names.
Context `{U : UnicodeTables}.
Import headers.

Lemma token_byte b :
  isTokenChar (lowerASCII b) = true →
  b ≠ CR ∧ b ≠ ":"%char ∧ b ≠ " "%char ∧ isASCII b = true.
Proof.
  destruct b as [[] [] [] [] [] [] [] []]; vm_compute; intros Ht;
    try discriminate Ht; repeat split; discriminate.
Qed.

Lemma HasPrefix_CRLF_cons c s : c ≠ CR → HasPrefix (c :: s) CRLF = false.
Proof. intros Hc. simpl. by rewrite bool_decide_eq_false_2. Qed.

Lemma Index_CRLF_skip s x :
  Forall (λ b, b ≠ CR) s →
  Index (s ++ x) CRLF = (λ i, length s + i) <$> Index x CRLF.
Proof.
  induction 1 as [|c s Hc Hs IH]; simpl app.
  - by destruct (Index x CRLF).
  - rewrite Index_cons, HasPrefix_CRLF_cons, IH by done.
    by destruct (Index x CRLF).
Qed.

Lemma TrimLeft_id s c : head s ≠ Some c → TrimLeft s c = s.
Proof.
  destruct s as [|x s]; [done|]. simpl. intros Hx.
  rewrite bool_decide_eq_false_2; [done|]. congruence.
Qed.

Lemma ToLower_ascii s :
  Forall (λ b, isASCII b = true) s → ToLower s = lowerASCII <$> s.
Proof.
  intros Hs. unfold ToLower.
  replace (forallb isASCII s) with true; [done|].
  symmetry. apply forallb_forall. intros b Hb.
  by apply (proj1 (Forall_forall _ _) Hs), list_elem_of_In.
Qed.

(** One valid field line, given as a whole slice: the value is inserted,
    or appended after ", " to the value that is there. *)
Lemma Parse_fieldLine (h : gmap string string) name raw :
  validName name → Index raw CRLF = None →
  let k := str (lowerASCII <$> name) in
  let v := str (TrimSpace raw) in
  Parse h (fieldLine name raw)
  = (match h !! k with
     | Some existingValue => <[k := existingValue +:+ ", " +:+ v]> h
     | None => <[k := v]> h
     end, (length (fieldLine name raw), false, None)).
Proof.
  intros [Hne Htok] Hraw k v.
  assert (Forall (λ b, b ≠ CR ∧ b ≠ ":"%char ∧ b ≠ " "%char
                       ∧ isASCII b = true) name) as Hfacts.
  { eapply Forall_impl; [exact Htok|]. apply token_byte. }
  set (header := name ++ Bytes ":" ++ raw).
  assert (fieldLine name raw = header ++ CRLF ++ []) as ->.
  { unfold fieldLine, header. by rewrite <-!app_assoc, app_nil_r. }
  assert (Index header CRLF = None) as Hh.
  { unfold header. rewrite Index_CRLF_skip.
    - change (Bytes ":" ++ raw) with (":"%char :: raw).
      rewrite Index_cons, HasPrefix_CRLF_cons, Hraw by done. done.
    - eapply Forall_impl; [exact Hfacts|]. by intros b (?&?&?&?). }
  unfold Parse. rewrite (Index_CRLF_terminator _ _ Hh).
  rewrite take_app_length.
  assert (length header ≠ 0) as Hlen.
  { unfold header. rewrite length_app. destruct name; simpl; [done|lia]. }
  rewrite bool_decide_eq_false_2 by done.
  assert (Cut header (Bytes ":") = (name, raw, true)) as ->.
  { apply (Cut_byte name ":"%char raw).
    intros Hin. apply (proj1 (Forall_forall _ _) Hfacts) in Hin.
    by destruct Hin as (?&?&?&?). }
  simpl negb. cbv iota beta.
  destruct (last name) as [c|] eqn:Hlast;
    [|by apply last_None in Hlast].
  assert (c ≠ " "%char) as Hc.
  { apply last_Some_elem_of in Hlast.
    apply (proj1 (Forall_forall _ _) Hfacts) in Hlast.
    by destruct Hlast as (?&?&?&?). }
  rewrite bool_decide_eq_false_2 by done.
  rewrite TrimLeft_id.
  2:{ destruct name as [|b name]; [done|]. simpl.
      apply Forall_cons in Hfacts as [(?&?&?&?) _]. congruence. }
  rewrite ToLower_ascii.
  2:{ eapply Forall_impl; [exact Hfacts|]. by intros b (?&?&?&?). }
  replace (forallb isTokenChar (lowerASCII <$> name)) with true.
  2:{ symmetry. apply forallb_forall. intros b Hb.
      apply list_elem_of_In, list_elem_of_fmap in Hb as (b' & -> & Hb').
      by apply (proj1 (Forall_forall _ _) Htok). }
  simpl negb. cbv iota. fold k v.
  replace (length (header ++ CRLF ++ [])) with (length header + 2);
    [done|].
  rewrite !length_app. simpl. lia.
Qed.

End repeated_names.

Section repeated_names_claim.
Context `{U : UnicodeTables}.
Import headers request.

Local Abbreviation lines fields := ((λ f, fieldLine f.1 f.2) <$> fields).
Local Abbreviation values fields := ((λ f, str (TrimSpace f.2)) <$> fields).
Local Abbreviation wellFormed :=
  (Forall (λ f : bytes * bytes, validName f.1 ∧ Index f.2 CRLF = None)).

Lemma fieldOf_wellFormed key fields :
  Forall (fieldOf key) fields → wellFormed fields.
Proof.
  intros Hf. eapply Forall_impl; [exact Hf|]. by intros f (? & _ & ?).
Qed.

(** Valid field lines given to [Parse] one by one. *)
Lemma ParseEach_lines : ∀ fields (h : gmap string string),
  wellFormed fields →
  ParseEach h (lines fields) = Some (foldl addField h fields).
Proof.
  induction fields as [|[name raw] fields IH]; intros h Hf; [done|].
  apply Forall_cons in Hf as [[Hv Hraw] Hf]. simpl in *.
  rewrite Parse_fieldLine by done.
  rewrite bool_decide_eq_true_2 by done. by apply IH.
Qed.

(** One whole line at the head of the slice. *)
Lemma parse_line r line rest r' :
  state r ≠ requestStateDone →
  length line ≠ 0 →
  is_Some (Index line CRLF) →
  parseSingle r line = (r', (length line, None)) →
  parse r (line ++ rest) = shift (length line) <$> parse r' rest.
Proof.
  intros Hd Hl [idx Hi] Hs.
  rewrite parse_eq, parse_from_unfold, drop_0.
  rewrite (parseSingle_app _ _ _ _ Hi), Hs.
  rewrite !bool_decide_eq_false_2
    by (rewrite ?length_app; done || (destruct line; simpl in *; lia)).
  rewrite (parse_from_shift (length (line ++ rest)))
    by (rewrite ?length_app; lia).
  rewrite Nat.add_0_l. by rewrite drop_app_length, parse_eq.
Qed.

(** Valid field lines as they come in the stream, parsed by [parse] in the
    header state: every line is consumed, the state stays in the header
    section. *)
Lemma parse_lines rl : ∀ fields (h : gmap string string),
  wellFormed fields →
  parse (mkRequest rl (Some h) requestStateParsingHeaders)
        (concat (lines fields))
  = Some (mkRequest rl (Some (foldl addField h fields))
                    requestStateParsingHeaders,
          (length (concat (lines fields)), None)).
Proof.
  induction fields as [|[name raw] fields IH]; intros h Hf; [done|].
  apply Forall_cons in Hf as [[Hv Hraw] Hf]. simpl in *.
  pose proof (Parse_fieldLine h name raw Hv Hraw) as Hp. simpl in Hp.
  assert (length (fieldLine name raw) ≠ 0) as Hlen.
  { unfold fieldLine. rewrite !length_app. simpl. lia. }
  rewrite (parse_line _ _ _
             (mkRequest rl (Some (addField h (name, raw)))
                        requestStateParsingHeaders)); try done.
  - rewrite (IH _ Hf). unfold shift. simpl. by rewrite length_app.
  - destruct (Index (fieldLine name raw) CRLF) eqn:Hi; [done|].
    rewrite (Parse_no_CRLF _ _ Hi) in Hp. simplify_eq.
  - unfold parseSingle. simpl. rewrite Hp.
    by rewrite bool_decide_eq_false_2.
Qed.

Lemma foldl_addField_existing key : ∀ fields (h : gmap string string) acc,
  h !! key = Some acc →
  Forall (fieldOf key) fields →
  foldl addField h fields
  = <[key := foldl (λ acc v, acc +:+ ", " +:+ v) acc (values fields)]> h.
Proof.
  induction fields as [|[name raw] fields IH]; intros h acc Hk Hf.
  - simpl. by rewrite insert_id.
  - apply Forall_cons in Hf as [(Hv & Hkey & Hraw) Hf]. simpl in *.
    unfold addField at 2. simpl. rewrite Hkey, Hk.
    rewrite (IH _ (acc +:+ ", " +:+ str (TrimSpace raw)));
      [|by rewrite lookup_insert_eq|done].
    by rewrite insert_insert_eq.
Qed.

Lemma foldl_addField_fresh key fields (h : gmap string string) :
  fields ≠ [] →
  Forall (fieldOf key) fields →
  h !! key = None →
  foldl addField h fields = <[key := joined (values fields)]> h.
Proof.
  destruct fields as [|[name raw] fields]; [done|]. intros _ Hf Hk.
  apply Forall_cons in Hf as [(Hv & Hkey & Hraw) Hf]. simpl in *.
  unfold addField at 2. simpl. rewrite Hkey, Hk.
  rewrite (foldl_addField_existing key _ _ (str (TrimSpace raw)));
    [|by rewrite lookup_insert_eq|done].
  by rewrite insert_insert_eq.
Qed.

(** C5. N >= 1 valid field lines that repeat one field name, in any
    casing, parsed in order into a map that has no entry for the name: the
    map gets one entry for the lower-cased name, and its value is
    v1 + ", " + v2 + ... + ", " + vN, the values in arrival order (each
    value being the raw value with the surrounding white space trimmed);
    every other entry is left as it was.  This holds for the lines given to
    [Parse] one by one, and for the lines parsed by [parse] from the stream
    in the header state, which consumes them all. *)
Theorem repeated_field_values_are_joined (key : string)
    (fields : list (bytes * bytes)) (h : gmap string string) :
  fields ≠ [] →
  Forall (fieldOf key) fields →
  h !! key = None →
  let h' := <[key := joined (values fields)]> h in
  ParseEach h (lines fields) = Some h'
  ∧ ∀ rl,
      parse (mkRequest rl (Some h) requestStateParsingHeaders)
            (concat (lines fields))
      = Some (mkRequest rl (Some h') requestStateParsingHeaders,
              (length (concat (lines fields)), None)).
Proof.
  intros Hne Hf Hk h'. subst h'.
  rewrite <-(foldl_addField_fresh key fields h Hne Hf Hk).
  pose proof (fieldOf_wellFormed _ _ Hf).
  split; [by apply ParseEach_lines|].
  intros rl. by apply parse_lines.
Qed.

End repeated_names_claim.

(** * The response writer *)

Section writer_claims.
Import response.
Context {W : Type} `{IO : IoWriter W}.
Context (rangeOrder : gmap string string → list (string * string)).

Local Abbreviation call := (response.call rangeOrder).
Local Abbreviation calls := (response.calls rangeOrder).

Lemma Writer_WriteStatusLine_ok (w w' : Writer) statusCode :
  Writer_WriteStatusLine w statusCode = (w', None) →
  state w = StateStatusPending ∧ state w' = StateHeadersPending.
Proof.
  unfold Writer_WriteStatusLine. case_bool_decide as Hs; [done|].
  destruct (WriteStatusLine (writer w) statusCode) as [io [e|]];
    intros [= <-]. split; [|done].
  by destruct (state w).
Qed.

Lemma call_step (w : Writer) (c : Call) :
  state (call w c).1 = state w
  ∨ (∃ statusCode, c = CallWriteStatusLine statusCode
       ∧ state w = StateStatusPending ∧ (call w c).2 = None
       ∧ state (call w c).1 = StateHeadersPending)
  ∨ (∃ headers, c = CallWriteHeaders headers
       ∧ state w = StateHeadersPending ∧ (call w c).2 = None
       ∧ state (call w c).1 = StateBodyPending).
Proof.
  destruct c as [statusCode|headers|p]; simpl.
  - unfold Writer_WriteStatusLine. case_bool_decide as Hs; [by left|].
    assert (state w = StateStatusPending) by (by destruct (state w)).
    destruct (WriteStatusLine (writer w) statusCode) as [io [e|]];
      [by left|]. right; left. eauto.
  - unfold Writer_WriteHeaders. case_bool_decide as Hs; [by left|].
    assert (state w = StateHeadersPending) by (by destruct (state w)).
    destruct (WriteHeaders rangeOrder (writer w) headers) as [io [e|]];
      [by left|].
    destruct (Write io CRLF) as [io' [n [e|]]]; [by left|].
    right; right. eauto.
  - unfold Writer_WriteBody. case_bool_decide; [by left|].
    destruct (Write (writer w) p) as [io [n e]]. by left.
Qed.

Lemma calls_snoc (w : Writer) cs c :
  calls w (cs ++ [c]) = (call (calls w cs) c).1.
Proof. unfold response.calls. by rewrite foldl_app. Qed.

Lemma statusLineWritten_snoc io cs c :
  statusLineWritten rangeOrder io cs →
  statusLineWritten rangeOrder io (cs ++ [c]).
Proof.
  intros (cs1 & code & cs2 & -> & Hok).
  exists cs1, code, (cs2 ++ [c]). split; [|done].
  by rewrite <-app_assoc.
Qed.

Lemma headersWritten_snoc io cs c :
  headersWritten rangeOrder io cs →
  headersWritten rangeOrder io (cs ++ [c]).
Proof.
  intros (cs1 & code & cs2 & hs & cs3 & -> & Hok1 & Hok2).
  exists cs1, code, cs2, hs, (cs3 ++ [c]). split; [|done].
  rewrite <-!app_assoc. simpl. by rewrite <-!app_assoc.
Qed.

(** What the state of the writer records about the calls made so far. *)
Lemma calls_history io cs :
  match state (calls (NewWriter io) cs) with
  | StateStatusPending => True
  | StateHeadersPending => statusLineWritten rangeOrder io cs
  | StateBodyPending => headersWritten rangeOrder io cs
  end.
Proof.
  induction cs as [|c cs IH] using rev_ind; [done|].
  rewrite calls_snoc.
  destruct (call_step (calls (NewWriter io) cs) c)
    as [Hsame | [(code & -> & Hst & Hok & Hnew)
                | (hs & -> & Hst & Hok & Hnew)]].
  - rewrite Hsame. destruct (state (calls (NewWriter io) cs));
      auto using statusLineWritten_snoc, headersWritten_snoc.
  - rewrite Hnew. by exists cs, code, [].
  - rewrite Hnew. rewrite Hst in IH.
    destruct IH as (cs1 & code & cs2 & -> & Hok1).
    exists cs1, code, cs2, hs, []. split; [by rewrite <-app_assoc|].
    by split.
Qed.

(** C8. The three-phase order of the response writer.
    (1) WriteStatusLine returns no error only from the initial state.
    (2) WriteHeaders, called in any state but the one that follows the
        status line, returns its gate error and does nothing; and for every
        sequence of calls on a new writer, that state is reached only after
        a WriteStatusLine that returned no error.
    (3) WriteBody, called in any state but the one that follows the
        headers, returns (0, error) and writes nothing; and for every
        sequence of calls on a new writer, that state is reached only after
        a WriteStatusLine that returned no error and a later WriteHeaders
        that returned no error. *)
Theorem Writer_three_phase_order :
  (∀ (w w' : Writer) statusCode,
     Writer_WriteStatusLine w statusCode = (w', None) →
     state w = StateStatusPending)
  ∧ (∀ (w : Writer) headers,
       state w ≠ StateHeadersPending →
       Writer_WriteHeaders rangeOrder w headers
       = (w, Some (ErrCannotWriteHeaderLine (WriterState_int (state w)))))
  ∧ (∀ (io : W) (cs : list Call),
       state (calls (NewWriter io) cs) = StateHeadersPending →
       statusLineWritten rangeOrder io cs)
  ∧ (∀ (w : Writer) p,
       state w ≠ StateBodyPending →
       Writer_WriteBody w p = (w, (0, Some ErrCannotWriteBody)))
  ∧ (∀ (io : W) (cs : list Call),
       state (calls (NewWriter io) cs) = StateBodyPending →
       headersWritten rangeOrder io cs).
Proof.
  repeat split.
  - intros w w' code Hw. by apply Writer_WriteStatusLine_ok in Hw as [? _].
  - intros w hs Hs. unfold Writer_WriteHeaders.
    by rewrite bool_decide_eq_true_2.
  - intros io cs Hs. pose proof (calls_history io cs) as Hh.
    by rewrite Hs in Hh.
  - intros w p Hs. unfold Writer_WriteBody.
    by rewrite bool_decide_eq_true_2.
  - intros io cs Hs. pose proof (calls_history io cs) as Hh.
    by rewrite Hs in Hh.
Qed.

End writer_claims.

(** * The statements at concrete inputs *)

Section concrete_inputs.
Import headers request.

(** C6, the counterexample: a lower-case method with the version part
    "HTTP/1.0".  The line is complete and splits on its two spaces, the
    method has bytes outside 'A'-'Z', and the error is the one of the
    version, not InvalidMethod. *)
Lemma lowercase_method_with_other_version :
  let data := Bytes ("get / HTTP/1.0" +:+ crlf +:+ crlf) in
  data = (Bytes "get" ++ Bytes " " ++ Bytes "/" ++ Bytes " "
            ++ Bytes "HTTP/1.0") ++ CRLF ++ CRLF
  ∧ Exists outside_A_Z (Bytes "get")
  ∧ parseRequestLine data
    = (None, 0, data, Some (ErrorInvalidVersion "HTTP/1.0"))
  ∧ parseRequestLine data
    ≠ (None, 0, data, Some (ErrorInvalidMethod "get")).
Proof.
  repeat split; try (vm_compute; reflexivity).
  - apply Exists_cons_hd. right. vm_compute. reflexivity.
  - vm_compute. discriminate.
Qed.

Lemma no_CRLF_is_insufficient_data_witness :
  Index (Bytes "GET / HT") CRLF = None
  ∧ parseRequestLine (Bytes "GET / HT") = (None, 0, Bytes "GET / HT", None)
  ∧ Parse (U := identityTables) ∅ (Bytes "GET / HT")
    = (∅, (0, false, None)).
Proof.
  split; [reflexivity|].
  apply (no_CRLF_is_insufficient_data (U := identityTables)). reflexivity.
Defined.

Lemma Parse_atomic_on_failure_witness :
  let data := Bytes ("Host : localhost" +:+ crlf) in
  let h : gmap string string := {[ "accept" := "*/*" ]} in
  Parse (U := identityTables) h data
  = (h, (0, false, Some ErrSpaceBeforeColon))
  ∧ 0 = 0 ∧ false = false ∧ h = h
  ∧ ErrSpaceBeforeColon
    ∈ [ErrNoColon; ErrEmptyKey; ErrSpaceBeforeColon; ErrInvalidCharInKey].
Proof.
  intros data h.
  assert (Parse (U := identityTables) h data
          = (h, (0, false, Some ErrSpaceBeforeColon))) as Hp
    by (vm_compute; reflexivity).
  split; [exact Hp|].
  exact (Parse_atomic_on_failure (U := identityTables) _ _ _ _ _ _ Hp).
Defined.

Lemma parseRequestLine_invalid_method_witness :
  let method := Bytes "get" in
  let target := Bytes "/" in
  let version := Bytes "HTTP/1.1" in
  let data := (method ++ Bytes " " ++ target ++ Bytes " " ++ version)
              ++ CRLF ++ CRLF in
  (" "%char ∉ method)
  ∧ (" "%char ∉ target)
  ∧ Index (method ++ Bytes " " ++ target ++ Bytes " " ++ version) CRLF
    = None
  ∧ Exists outside_A_Z method
  ∧ parseRequestLine data
    = (None, 0, data, Some (ErrorInvalidMethod "get")).
Proof.
  intros method target version data.
  assert (" "%char ∉ method) as Hm.
  { cbv [method Bytes list_ascii_of_string].
    repeat (apply not_elem_of_cons; split; [discriminate|]).
    apply not_elem_of_nil. }
  assert (" "%char ∉ target) as Ht.
  { cbv [target Bytes list_ascii_of_string].
    repeat (apply not_elem_of_cons; split; [discriminate|]).
    apply not_elem_of_nil. }
  assert (Index (method ++ Bytes " " ++ target ++ Bytes " " ++ version)
                CRLF = None) as Hl by (vm_compute; reflexivity).
  assert (Exists outside_A_Z method) as Hx.
  { apply Exists_cons_hd. right. vm_compute. reflexivity. }
  repeat (split; [assumption|]).
  exact (parseRequestLine_invalid_method method target version CRLF
           Hm Ht Hl Hx).
Defined.

Lemma chunk_size_invariance_witness :
  1 ≤ 1
  ∧ ∃ result,
      RequestFromReader (U := identityTables)
        (chunkReader (Bytes scenarioA) 1) = Some result
      ∧ RequestFromReader (U := identityTables)
          (deliver [Bytes scenarioA]) = Some result.
Proof.
  split; [lia|].
  apply (chunk_size_invariance (U := identityTables)). lia.
Defined.

Lemma end_of_stream_returns_request_so_far_witness :
  let partial := mkRequest (mkRequestLine "1.1" "/" "GET")
                           (Some {[ "host" := "localhost" ]})
                           requestStateParsingHeaders in
  let pre := [(Bytes ("GET / HTTP/1.1" +:+ crlf +:+ "Host: loc"), None);
              (Bytes ("alhost" +:+ crlf +:+ "User-Age"), Some io_EOF)] in
  let rd := [(Bytes ("nt: curl" +:+ crlf +:+ crlf), None)] in
  forallb dataRead pre = true
  ∧ pending (U := identityTables) newRequest [] (fst <$> pre)
    = Some (partial, Bytes "User-Age")
  ∧ state partial ≠ requestStateDone
  ∧ RequestFromReader (U := identityTables)
      (pre ++ ([], Some io_EOF) :: rd)
    = Some (Some (with_state partial requestStateDone), None)
  ∧ RequestFromReader (U := identityTables) pre
    = Some (Some (with_state partial requestStateDone), None).
Proof.
  intros partial pre rd.
  assert (forallb dataRead pre = true) as Hpre by (vm_compute; reflexivity).
  assert (pending (U := identityTables) newRequest [] (fst <$> pre)
          = Some (partial, Bytes "User-Age")) as Hp
    by (vm_compute; reflexivity).
  repeat (split; [assumption|]).
  exact (end_of_stream_returns_request_so_far (U := identityTables)
           pre rd _ _ Hpre Hp).
Defined.

Lemma repeated_field_values_are_joined_witness :
  let fields := [(Bytes "My-List", Bytes " item1");
                 (Bytes "MY-LIST", Bytes "item2  ");
                 (Bytes "my-list", Bytes "item3")] in
  let stream := Bytes ("My-List: item1" +:+ crlf +:+ "MY-LIST:item2  "
                       +:+ crlf +:+ "my-list:item3" +:+ crlf) in
  let h : gmap string string := {[ "host" := "localhost" ]} in
  let h' : gmap string string := <["my-list" := "item1, item2, item3"]> h in
  fields ≠ []
  ∧ Forall (fieldOf "my-list") fields
  ∧ h !! "my-list" = None
  ∧ ParseEach (U := identityTables) h ((λ f, fieldLine f.1 f.2) <$> fields)
    = Some h'
  ∧ ∀ rl,
      parse (U := identityTables)
            (mkRequest rl (Some h) requestStateParsingHeaders) stream
      = Some (mkRequest rl (Some h') requestStateParsingHeaders,
              (length stream, None)).
Proof.
  intros fields stream h h'.
  assert (fields ≠ []) as Hne by discriminate.
  assert (Forall (fieldOf "my-list") fields) as Hf.
  { repeat apply Forall_cons_2; try apply Forall_nil_2;
      (split; [split; [discriminate|]|split; vm_compute; reflexivity]);
      repeat apply Forall_cons_2; try apply Forall_nil_2;
      vm_compute; reflexivity. }
  assert (h !! "my-list" = None) as Hk by (vm_compute; reflexivity).
  repeat (split; [assumption|]).
  exact (repeated_field_values_are_joined (U := identityTables)
           "my-list" fields h Hne Hf Hk).
Defined.

End concrete_inputs.

Section writer_example.
Import response.

Lemma Writer_three_phase_order_witness :
  let cs := [CallWriteStatusLine StatusOK;
             CallWriteHeaders {[ "content-type" := "text/html" ]};
             CallWriteBody (Bytes "hi")] in
  state (calls (IO := logWriter) map_to_list (NewWriter []) cs)
  = StateBodyPending
  ∧ headersWritten (IO := logWriter) map_to_list [] cs
  ∧ Writer_WriteBody (IO := logWriter) (NewWriter []) (Bytes "hi")
    = (NewWriter [], (0, Some ErrCannotWriteBody)).
Proof.
  intros cs.
  destruct (Writer_three_phase_order (IO := logWriter) map_to_list)
    as (_ & _ & _ & Hbody & Hhist).
  assert (state (calls (IO := logWriter) map_to_list (NewWriter []) cs)
          = StateBodyPending) as Hs by (vm_compute; reflexivity).
  split; [exact Hs|]. split; [exact (Hhist _ _ Hs)|].
  apply Hbody. discriminate.
Defined.

End writer_example.

(** * Further properties: the request line *)

Section more_bytes_facts.
Implicit Types s sep x : bytes.

Lemma Bytes_str s : Bytes (str s) = s.
Proof. apply list_ascii_of_string_of_list_ascii. Qed.

Lemma str_Bytes (t : string) : str (Bytes t) = t.
Proof. apply string_of_list_ascii_of_string. Qed.

Lemma str_inj s x : str s = str x → s = x.
Proof. intros Heq. by rewrite <-(Bytes_str s), Heq, Bytes_str. Qed.

Lemma Cut_found_split s sep before after :
  Cut s sep = (before, after, true) → s = before ++ sep ++ after.
Proof.
  unfold Cut. destruct (Index s sep) as [i|] eqn:Hi; [|done].
  intros [= <- <-].
  pose proof (Index_bound _ _ _ Hi) as Hb.
  apply Index_Some_spec in Hi as [[post Hpost] _].
  assert (drop (i + length sep) s = post) as ->; [|exact Hpost].
  rewrite Hpost at 1. rewrite app_assoc. apply drop_app_length'.
  rewrite length_app, length_take. lia.
Qed.

Lemma Index_take_None s sep i :
  Index s sep = Some i → sep ≠ [] → Index (take i s) sep = None.
Proof.
  intros Hi Hsep. apply Index_None_spec. intros pre post Heq.
  pose proof (Index_bound _ _ _ Hi) as Hb.
  apply Index_Some_spec in Hi as [_ Hmin].
  specialize (Hmin pre (post ++ drop i s)).
  assert (length (take i s) = i) as Hl by (rewrite length_take; lia).
  rewrite Heq, !length_app in Hl.
  destruct sep; [done|]. simpl in Hl.
  assert (i ≤ length pre); [|lia]. apply Hmin.
  rewrite <-(take_drop i s) at 1. rewrite Heq. by rewrite <-!app_assoc.
Qed.

Lemma Cut_first s sep before after :
  Cut s sep = (before, after, true) → sep ≠ [] → Index before sep = None.
Proof.
  unfold Cut. destruct (Index s sep) as [i|] eqn:Hi; [|done].
  intros [= <- <-] Hsep. by apply Index_take_None.
Qed.

Lemma Index_byte_None s c : Index s [c] = None ↔ c ∉ s.
Proof.
  rewrite Index_None_spec. split.
  - intros Hno Hin. apply list_elem_of_split in Hin as (pre & post & ->).
    by apply (Hno pre post).
  - intros Hc pre post ->. apply Hc. set_solver.
Qed.

Lemma Index_CRLF_app_None s x :
  Index s CRLF = None → Index x CRLF = None → head x ≠ Some LF →
  Index (s ++ x) CRLF = None.
Proof.
  intros Hs Hx Hh. induction s as [|c s IH]; [done|].
  change ((c :: s) ++ x) with (c :: (s ++ x)).
  rewrite Index_cons in Hs |- *.
  destruct (HasPrefix (c :: s) CRLF) eqn:Hp; [done|].
  destruct (Index s CRLF) eqn:Hi; [done|]. rewrite (IH eq_refl).
  replace (HasPrefix (c :: s ++ x) CRLF) with false; [done|].
  destruct s as [|d s]; simpl in *; [|done].
  destruct (bool_decide (c = CR)); [|done]. simpl.
  destruct x as [|y x]; [done|]. simpl.
  rewrite bool_decide_eq_false_2; [done|]. simpl in Hh. congruence.
Qed.

Lemma isUpper_facts b :
  isUpper b = true →
  b ≠ CR ∧ b ≠ " "%char
  ∧ ((ord b <? ord "A")%N || (ord "Z" <? ord b)%N) = false.
Proof.
  destruct b as [[] [] [] [] [] [] [] []]; vm_compute; intros Ht;
    try discriminate Ht; repeat split; discriminate.
Qed.

Lemma not_isUpper b :
  ((ord b <? ord "A")%N || (ord "Z" <? ord b)%N) = negb (isUpper b).
Proof. destruct b as [[] [] [] [] [] [] [] []]; reflexivity. Qed.

End more_bytes_facts.

Section request_line_more.
Import request.

Lemma existsb_forallb {A} (f : A → bool) (l : list A) :
  existsb f l = negb (forallb (λ x, negb (f x)) l).
Proof.
  induction l as [|x l IH]; [done|]. simpl. rewrite IH.
  by destruct (f x), (forallb _ l).
Qed.

Lemma method_check (method : bytes) :
  existsb (λ char, (ord char <? ord "A")%N || (ord "Z" <? ord char)%N) method
  = negb (forallb isUpper method).
Proof.
  rewrite existsb_forallb. f_equal.
  induction method as [|b method IH]; [done|]. cbn [forallb].
  by rewrite IH, not_isUpper, negb_involutive.
Qed.

Lemma version_literal (rest : bytes) :
  str rest = "HTTP/1.1" →
  rest = Bytes "HTTP/1.1"
  ∧ Cut rest (Bytes "/") = (Bytes "HTTP", Bytes "1.1", true).
Proof.
  intros Hv. assert (rest = Bytes "HTTP/1.1") as ->
    by (by rewrite <-(Bytes_str rest), Hv).
  split; [done|]. by vm_compute.
Qed.

Lemma requestLine_no_CRLF method target :
  forallb isUpper method = true →
  Index target CRLF = None →
  Index (requestLine method target) CRLF = None.
Proof.
  intros Hm Ht. unfold requestLine. rewrite Index_CRLF_skip.
  - change (Bytes " " ++ target ++ Bytes " HTTP/1.1")
      with (" "%char :: (target ++ Bytes " HTTP/1.1")).
    rewrite Index_cons, HasPrefix_CRLF_cons by done.
    by rewrite Index_CRLF_app_None.
  - apply Forall_forall. intros b Hb. apply list_elem_of_In in Hb.
    apply (proj1 (forallb_forall _ _) Hm) in Hb.
    by apply isUpper_facts in Hb as (? & _).
Qed.

Lemma parseRequestLine_ok (method target rest : bytes) :
  forallb isUpper method = true →
  " "%char ∉ target →
  Index target CRLF = None →
  parseRequestLine (requestLine method target ++ CRLF ++ rest)
  = (Some (mkRequestLine "1.1" (str target) (str method)),
     length (requestLine method target) + 2, rest, None).
Proof.
  intros Hm Ht Hc. unfold parseRequestLine.
  rewrite (Cut_CRLF_terminator _ _ (requestLine_no_CRLF _ _ Hm Hc)).
  simpl negb. cbv iota beta. unfold requestLine at 1.
  change (Bytes " ") with [" "%char]. simpl app.
  rewrite Cut_byte.
  2:{ intros Hin. apply list_elem_of_In in Hin.
      apply (proj1 (forallb_forall _ _) Hm) in Hin.
      by apply isUpper_facts in Hin as (_ & ? & _). }
  simpl negb. cbv iota beta.
  change (Bytes " HTTP/1.1") with (" "%char :: Bytes "HTTP/1.1").
  rewrite (Cut_byte _ _ _ Ht). simpl negb. cbv iota beta.
  set (c := Cut _ (Bytes "/")). vm_compute in c. subst c.
  simpl negb. cbv iota beta.
  by rewrite method_check, Hm.
Qed.

(** X1. A request line METHOD SP TARGET SP "HTTP/1.1" CRLF whose method is
    made of capital letters (the empty method included) and whose target
    has no space and no CRLF is parsed to its three parts, with version
    "1.1"; the count is the length of the line plus two, and the rest of
    the slice is handed back. *)
Theorem parseRequestLine_well_formed (method target rest : bytes) :
  forallb isUpper method = true →
  " "%char ∉ target →
  Index target CRLF = None →
  parseRequestLine (requestLine method target ++ CRLF ++ rest)
  = (Some (mkRequestLine "1.1" (str target) (str method)),
     length (requestLine method target) + 2, rest, None).
Proof. apply parseRequestLine_ok. Qed.

Lemma parseRequestLine_inverse (data rest : bytes)
    (rl : RequestLine) (n : nat) (err : option error) :
  parseRequestLine data = (Some rl, n, rest, err) →
  let line := requestLine (Bytes (Method rl)) (Bytes (RequestTarget rl)) in
  err = None
  ∧ HttpVersion rl = "1.1"
  ∧ forallb isUpper (Bytes (Method rl)) = true
  ∧ (" "%char ∉ Bytes (RequestTarget rl))
  ∧ data = line ++ CRLF ++ rest
  ∧ Index line CRLF = None
  ∧ n = length line + 2.
Proof.
  unfold parseRequestLine.
  destruct (Cut data CRLF) as [[line restOfMsg] []] eqn:H1; [|done].
  destruct (Cut line (Bytes " ")) as [[method r1] []] eqn:H2; [|done].
  destruct (Cut r1 (Bytes " ")) as [[target r2] []] eqn:H3; [|done].
  simpl negb. cbv iota beta.
  case_bool_decide as Hv; [|done]. simpl negb. cbv iota.
  destruct (version_literal _ Hv) as [-> ->]. simpl negb. cbv iota beta.
  rewrite method_check. destruct (forallb isUpper method) eqn:Hm; [|done].
  intros [= <- <- <- <-]. simpl. rewrite !Bytes_str.
  apply Cut_found_split in H2 as Hline, H3 as Hr1.
  assert (requestLine method target = line) as ->.
  { unfold requestLine. by rewrite Hline, Hr1. }
  repeat split; try done.
  - apply Index_byte_None. by apply (Cut_first _ _ _ _ H3).
  - by apply Cut_found_split in H1.
  - by apply (Cut_first _ _ _ _ H1).
Qed.

(** X2. Whenever [parseRequestLine] returns a request line there is no
    error, the version is "1.1", the method is made of capital letters, the
    target has no space, and the slice is exactly the rendering of the
    three parts, a CRLF and the rest handed back; that line holds no CRLF
    (it is the first line), and the count is its length plus two. *)
Theorem parseRequestLine_returns_first_line (data rest : bytes)
    (rl : RequestLine) (n : nat) (err : option error) :
  parseRequestLine data = (Some rl, n, rest, err) →
  let line := requestLine (Bytes (Method rl)) (Bytes (RequestTarget rl)) in
  err = None
  ∧ HttpVersion rl = "1.1"
  ∧ forallb isUpper (Bytes (Method rl)) = true
  ∧ (" "%char ∉ Bytes (RequestTarget rl))
  ∧ data = line ++ CRLF ++ rest
  ∧ Index line CRLF = None
  ∧ n = length line + 2.
Proof. apply parseRequestLine_inverse. Qed.

(** X3. On every error [parseRequestLine] returns no request line, zero
    bytes and the slice it was given; the error is the missing first or
    second space, a version part other than "HTTP/1.1" (carried raw), or a
    method with a byte that is not a capital letter (carried raw).  The
    error for a version part without "/" is never returned. *)
Theorem parseRequestLine_error_shape (data rest : bytes)
    (rl : option RequestLine) (n : nat) (e : error) :
  parseRequestLine data = (rl, n, rest, Some e) →
  rl = None ∧ n = 0 ∧ rest = data
  ∧ e ≠ ERROR_PARSING_HTTP_VERSION_IN_REQUEST_LINE
  ∧ (e = ERROR_PARSING_METHOD_IN_REQUEST_LINE
     ∨ e = ERROR_PARSING_TARGET_IN_REQUEST_LINE
     ∨ (∃ version, e = ErrorInvalidVersion version ∧ version ≠ "HTTP/1.1")
     ∨ (∃ method, e = ErrorInvalidMethod method
                  ∧ forallb isUpper (Bytes method) = false)).
Proof.
  unfold parseRequestLine.
  destruct (Cut data CRLF) as [[line restOfMsg] []] eqn:H1; [|done].
  destruct (Cut line (Bytes " ")) as [[method r1] []] eqn:H2;
    simpl negb; cbv iota beta;
    [|intros [= <- <- <- <-]; repeat split; try done; by left].
  destruct (Cut r1 (Bytes " ")) as [[target r2] []] eqn:H3;
    simpl negb; cbv iota beta;
    [|intros [= <- <- <- <-]; repeat split; try done; right; by left].
  case_bool_decide as Hv; simpl negb; cbv iota;
    [|intros [= <- <- <- <-]; repeat split; try done;
      do 2 right; left; eauto].
  destruct (version_literal _ Hv) as [-> ->]. simpl negb. cbv iota beta.
  rewrite method_check. destruct (forallb isUpper method) eqn:Hm; [done|].
  intros [= <- <- <- <-]. repeat split; try done.
  do 3 right. exists (str method). by rewrite Bytes_str.
Qed.

(** X4. A complete first line without any space gives the error of the
    method; a line with exactly one space gives the error of the target. *)
Theorem parseRequestLine_missing_space (line rest : bytes) :
  Index line CRLF = None →
  (" "%char ∉ line →
   parseRequestLine (line ++ CRLF ++ rest)
   = (None, 0, line ++ CRLF ++ rest,
      Some ERROR_PARSING_METHOD_IN_REQUEST_LINE))
  ∧ (∀ a b, line = a ++ Bytes " " ++ b →
            " "%char ∉ a → " "%char ∉ b →
            parseRequestLine (line ++ CRLF ++ rest)
            = (None, 0, line ++ CRLF ++ rest,
               Some ERROR_PARSING_TARGET_IN_REQUEST_LINE)).
Proof.
  intros Hl. unfold parseRequestLine.
  rewrite (Cut_CRLF_terminator _ _ Hl). simpl negb. cbv iota beta.
  split.
  - intros Hs. apply Index_byte_None in Hs. unfold Cut.
    change (Bytes " ") with [" "%char]. by rewrite Hs.
  - intros a b -> Ha Hb. change (Bytes " ") with [" "%char]. simpl app.
    rewrite (Cut_byte _ _ _ Ha). simpl negb. cbv iota beta.
    apply Index_byte_None in Hb. unfold Cut. by rewrite Hb.
Qed.

End request_line_more.

(** * Further properties: header fields *)

Section headers_more.
Context `{U : UnicodeTables}.
Import headers.

Lemma Index_zero_prefix (s sep : bytes) :
  Index s sep = Some 0 → HasPrefix s sep = true.
Proof.
  intros Hi. apply Index_Some_spec in Hi as [[post Hpost] _].
  apply HasPrefix_spec. by exists post.
Qed.

(** X5. [Parse] reports done exactly for a slice that begins with CRLF, the
    blank line; it then consumes these two bytes and leaves the map as it
    is, whatever follows. *)
Theorem Parse_done_iff_blank_line (h : gmap string string) (data : bytes) :
  if HasPrefix data CRLF then Parse h data = (h, (2, true, None))
  else (Parse h data).2.1.2 = false.
Proof.
  destruct (HasPrefix data CRLF) eqn:Hp.
  - unfold Parse. by rewrite (Index_prefix _ _ Hp).
  - unfold Parse. destruct (Index data CRLF) as [[|idx]|] eqn:Hi;
      [by rewrite (Index_zero_prefix _ _ Hi) in Hp| |done].
    rewrite bool_decide_eq_false_2 by done. cbv zeta.
    destruct (Cut _ _) as [[key remaining] []]; [|reflexivity].
    cbv beta iota. unfold negb at 1. cbv iota.
    destruct (last key); [|reflexivity].
    destruct (bool_decide _); [reflexivity|].
    destruct (negb _); reflexivity.
Qed.

Lemma skipSpace_spaces (ws x : bytes) :
  forallb asciiSpace ws = true → skipSpace (ws ++ x) = skipSpace x.
Proof.
  induction ws as [|c ws IH]; [done|]. simpl.
  intros [-> Hws]%andb_prop. by apply IH.
Qed.

Lemma skipSpace_stop (x : bytes) c :
  head x = Some c → asciiSpace c = false → skipSpace x = x.
Proof. destruct x; [done|]. simpl. by intros [= ->] ->. Qed.

Lemma forallb_reverse {A} (f : A → bool) (l : list A) :
  forallb f (reverse l) = forallb f l.
Proof.
  induction l as [|x l IH]; [done|].
  rewrite reverse_cons, forallb_app, IH. simpl.
  by destruct (f x), (forallb f l).
Qed.

(** White space around a value is what [TrimSpace] removes. *)
Lemma TrimSpace_padded (ws1 v ws2 : bytes) :
  forallb asciiSpace ws1 = true → forallb asciiSpace ws2 = true →
  trimmedValue v = true →
  TrimSpace (ws1 ++ v ++ ws2) = v.
Proof.
  intros H1 H2 Hv. unfold TrimSpace. rewrite (skipSpace_spaces _ _ H1).
  destruct v as [|a v].
  - simpl. rewrite <-(app_nil_r ws2), (skipSpace_spaces _ _ H2). done.
  - unfold trimmedValue in Hv. simpl head in Hv.
    destruct (last (a :: v)) as [z|] eqn:Hlast;
      [|by apply last_None in Hlast].
    apply andb_prop in Hv as [[[Ha Hna]%andb_prop Hz]%andb_prop Hnz].
    apply negb_true_iff in Hna, Hnz.
    rewrite (skipSpace_stop ((a :: v) ++ ws2) a) by done.
    change ((a :: v) ++ ws2) with (a :: (v ++ ws2)). cbv iota.
    rewrite Ha. change (a :: (v ++ ws2)) with ((a :: v) ++ ws2).
    rewrite reverse_app, skipSpace_spaces by (by rewrite forallb_reverse).
    rewrite (skipSpace_stop _ z), reverse_involutive, Hlast, Hz; [done| |done].
    by rewrite head_reverse.
Qed.

End headers_more.

Section headers_more_fields.
Context `{U : UnicodeTables}.
Import headers.

Lemma TrimLeft_replicate k (s : bytes) c :
  head s ≠ Some c → TrimLeft (replicate k c ++ s) c = s.
Proof.
  intros Hs. induction k as [|k IH]; simpl.
  - by apply TrimLeft_id.
  - by rewrite bool_decide_eq_true_2.
Qed.

(** X6. Optional white space in a field line: spaces before a valid field
    name are dropped, white space around the value is trimmed, and the
    value is stored under the lower-cased name, or appended after ", " to
    the value that is there; the whole line is consumed. *)
Theorem Parse_optional_white_space (h : gmap string string) (k : nat)
    (name ws1 v ws2 : bytes) :
  validName name →
  forallb asciiSpace ws1 = true →
  forallb asciiSpace ws2 = true →
  trimmedValue v = true →
  Index (ws1 ++ v ++ ws2) CRLF = None →
  let key := str (lowerASCII <$> name) in
  Parse h (paddedFieldLine k name ws1 v ws2)
  = (match h !! key with
     | Some existingValue => <[key := existingValue +:+ ", " +:+ str v]> h
     | None => <[key := str v]> h
     end, (length (paddedFieldLine k name ws1 v ws2), false, None)).
Proof.
  intros [Hne Htok] Hws1 Hws2 Hv Hraw key.
  assert (Forall (λ b, b ≠ CR ∧ b ≠ ":"%char ∧ b ≠ " "%char
                       ∧ isASCII b = true) name) as Hfacts.
  { eapply Forall_impl; [exact Htok|]. apply token_byte. }
  set (raw := ws1 ++ v ++ ws2) in *.
  set (padded := replicate k " "%char ++ name).
  set (header := padded ++ Bytes ":" ++ raw).
  assert (paddedFieldLine k name ws1 v ws2 = header ++ CRLF ++ []) as ->.
  { unfold paddedFieldLine, header, padded, raw.
    by rewrite <-!app_assoc, app_nil_r. }
  assert (Forall (λ b, b ≠ CR ∧ b ≠ ":"%char) padded) as Hpad.
  { apply Forall_app. split; [by apply Forall_replicate|].
    eapply Forall_impl; [exact Hfacts|]. by intros b (?&?&?&?). }
  assert (Index header CRLF = None) as Hh.
  { unfold header. rewrite Index_CRLF_skip.
    - change (Bytes ":" ++ raw) with (":"%char :: raw).
      rewrite Index_cons, HasPrefix_CRLF_cons, Hraw by done. done.
    - eapply Forall_impl; [exact Hpad|]. by intros b [? ?]. }
  unfold Parse. rewrite (Index_CRLF_terminator _ _ Hh), take_app_length.
  assert (length header ≠ 0) as Hlen.
  { unfold header, padded. rewrite !length_app.
    destruct name; simpl; [done|lia]. }
  rewrite bool_decide_eq_false_2 by done.
  assert (Cut header (Bytes ":") = (padded, raw, true)) as ->.
  { apply (Cut_byte padded ":"%char raw).
    intros Hin. apply (proj1 (Forall_forall _ _) Hpad) in Hin.
    by destruct Hin. }
  simpl negb. cbv iota beta.
  destruct (last name) as [c|] eqn:Hlast; [|by apply last_None in Hlast].
  assert (last padded = Some c) as ->.
  { unfold padded. by rewrite last_app, Hlast. }
  assert (c ≠ " "%char) as Hc.
  { apply last_Some_elem_of in Hlast.
    apply (proj1 (Forall_forall _ _) Hfacts) in Hlast.
    by destruct Hlast as (?&?&?&?). }
  rewrite bool_decide_eq_false_2 by done.
  unfold padded. rewrite TrimLeft_replicate.
  2:{ destruct name as [|b name]; [done|]. simpl.
      apply Forall_cons in Hfacts as [(?&?&?&?) _]. congruence. }
  rewrite ToLower_ascii.
  2:{ eapply Forall_impl; [exact Hfacts|]. by intros b (?&?&?&?). }
  replace (forallb isTokenChar (lowerASCII <$> name)) with true.
  2:{ symmetry. apply forallb_forall. intros b Hb.
      apply list_elem_of_In, list_elem_of_fmap in Hb as (b' & -> & Hb').
      by apply (proj1 (Forall_forall _ _) Htok). }
  simpl negb. cbv iota. fold key.
  unfold raw. rewrite TrimSpace_padded by done.
  replace (length (header ++ CRLF ++ [])) with (length header + 2);
    [done|].
  rewrite !length_app. simpl. lia.
Qed.

(** X7. [Set] then [Get]: after [Set(key, value)], [Get] under any key
    with the same lower-casing returns [value] and no error, and [Get]
    under a key with another lower-casing answers as before the [Set]. *)
Theorem Get_after_Set (h : gmap string string) (key value : string)
    (key' : bytes) :
  (ToLower key' = ToLower (Bytes key) →
   Get (Set_ h key value) key' = (value, None))
  ∧ (ToLower key' ≠ ToLower (Bytes key) →
     Get (Set_ h key value) key' = Get h key').
Proof.
  unfold Get, Set_. split.
  - intros ->. by rewrite lookup_insert_eq.
  - intros Hne. rewrite lookup_insert_ne; [done|].
    intros Heq. by apply str_inj in Heq.
Qed.

(** X8. Lookup after parsing is case-insensitive: after a valid field line
    is parsed, [Get] under any casing of its name returns the value that
    the line left under the name (the trimmed value, after ", " when there
    was one already) and no error. *)
Theorem Get_after_Parse (h : gmap string string) (name raw name' : bytes) :
  validName name →
  Index raw CRLF = None →
  lowerASCII <$> name' = lowerASCII <$> name →
  let key := str (lowerASCII <$> name) in
  Get (Parse h (fieldLine name raw)).1 name'
  = (match h !! key with
     | Some existingValue => existingValue +:+ ", " +:+ str (TrimSpace raw)
     | None => str (TrimSpace raw)
     end, None).
Proof.
  intros Hv Hraw Hcase key.
  rewrite Parse_fieldLine by done. simpl fst. unfold Get.
  rewrite ToLower_ascii, Hcase.
  - fold key. destruct (h !! key); by rewrite lookup_insert_eq.
  - destruct Hv as [_ Htok]. apply Forall_forall. intros b Hb.
    assert (lowerASCII b ∈ lowerASCII <$> name) as Hin
      by (rewrite <-Hcase; by apply list_elem_of_fmap_2).
    apply list_elem_of_fmap in Hin as (b' & Heq & Hb').
    apply (proj1 (Forall_forall _ _) Htok) in Hb'.
    rewrite <-Heq in Hb'. by apply token_byte in Hb' as (_&_&_&?).
Qed.

End headers_more_fields.

(** * Further properties: the response *)

Section default_headers.
Context `{U : UnicodeTables}.
Import headers response.

Lemma lowerASCII_not_capital b : lowerASCII b ≠ "C"%char.
Proof. destruct b as [[] [] [] [] [] [] [] []]; vm_compute; discriminate. Qed.

Lemma lowered_key_differs (key : bytes) (t : string) :
  "C"%char ∈ Bytes t → str (lowerASCII <$> key) ≠ t.
Proof.
  intros Hc Heq. rewrite <-Heq, Bytes_str in Hc.
  apply list_elem_of_fmap in Hc as (b & Hb & _).
  by apply (lowerASCII_not_capital b).
Qed.

(** X9. The default headers are stored under capitalised keys, which
    [Get] and [Set] never use: [Get] finds none of them under any ASCII
    key, and [Set("Content-Type", value)] adds a fourth entry,
    "content-type", next to the "Content-Type: text/plain" that stays. *)
Theorem default_headers_keep_their_capitals (contentLen : Z) (key : bytes)
    (value : string) :
  forallb isASCII key = true →
  Get (GetDefaultHeaders contentLen) key = ("", Some ErrKeyDoesntExist)
  ∧ let h := Set_ (GetDefaultHeaders contentLen) "Content-Type" value in
    h !! "Content-Type" = Some "text/plain"
    ∧ h !! "content-type" = Some value
    ∧ size h = 4.
Proof.
  intros Hkey. split.
  - unfold Get. rewrite ToLower_ascii.
    2:{ apply Forall_forall. intros b Hb.
        by apply (proj1 (forallb_forall _ _) Hkey), list_elem_of_In. }
    unfold GetDefaultHeaders, NewHeaders.
    rewrite !lookup_insert_ne, lookup_empty; [done|..];
      intros Heq; symmetry in Heq; revert Heq; apply lowered_key_differs;
      cbv [Bytes list_ascii_of_string]; set_solver.
  - unfold Set_.
    replace (str (ToLower (Bytes "Content-Type"))) with "content-type"
      by (vm_compute; reflexivity).
    unfold GetDefaultHeaders, NewHeaders. split; [|split].
    + by rewrite lookup_insert_ne, lookup_insert_eq.
    + by rewrite lookup_insert_eq.
    + rewrite !map_size_insert_None, map_size_empty; [done|..];
        by rewrite ?lookup_insert_ne, ?lookup_empty.
Qed.

End default_headers.

Section writer_more.
Import response.
Context {W : Type} `{IO : IoWriter W}.
Context (rangeOrder : gmap string string → list (string * string)).

Local Abbreviation call := (response.call rangeOrder).
Local Abbreviation calls := (response.calls rangeOrder).

(** X10. For every status code, [WriteStatusLine] issues one [Write], of
    the line "HTTP/1.1", space, the code in decimal, space, the reason
    phrase, CRLF, and returns the error of that [Write].  The reason phrase
    is "OK" for 200, "Bad Request" for 400, "Internal Server Error" for 500
    and empty for every other code, negative ones included; the space
    after the code is there also then. *)
Theorem WriteStatusLine_format (w : W) (statusCode : Z) :
  WriteStatusLine w statusCode
  = ((Write w (Bytes ("HTTP/1.1 " +:+ pretty statusCode +:+ " "
                      +:+ reasonPhrase statusCode +:+ crlf))).1,
     (Write w (Bytes ("HTTP/1.1 " +:+ pretty statusCode +:+ " "
                      +:+ reasonPhrase statusCode +:+ crlf))).2.2).
Proof.
  unfold WriteStatusLine, reasonPhrase, StatusOK, StatusBadRequest,
    StatusInternalServerError.
  case_bool_decide as H200;
    [subst; by destruct (Write _ _) as [? [? ?]]|].
  case_bool_decide as H400;
    [subst; by destruct (Write _ _) as [? [? ?]]|].
  case_bool_decide as H500;
    [subst; by destruct (Write _ _) as [? [? ?]]|].
  by destruct (Write _ _) as [? [? ?]].
Qed.

Lemma call_error_keeps_state (w : Writer) (c : Call) :
  is_Some (call w c).2 → state (call w c).1 = state w.
Proof.
  intros [e He].
  destruct (call_step rangeOrder w c)
    as [Hsame | [(code & -> & _ & Hok & _) | (hs & -> & _ & Hok & _)]];
    [done| |]; by rewrite Hok in He.
Qed.

Lemma call_state_forward (w : Writer) (c : Call) :
  WriterState_int (state w) ≤ WriterState_int (state (call w c).1)
  ≤ WriterState_int (state w) + 1.
Proof.
  destruct (call_step rangeOrder w c)
    as [-> | [(code & -> & -> & _ & ->) | (hs & -> & -> & _ & ->)]];
    simpl; lia.
Qed.

Lemma calls_state_forward cs : ∀ w : Writer,
  WriterState_int (state w) ≤ WriterState_int (state (calls w cs)).
Proof.
  induction cs as [|c cs IH]; intros w; [done|].
  change (calls w (c :: cs)) with (calls (call w c).1 cs).
  pose proof (call_state_forward w c). specialize (IH (call w c).1). lia.
Qed.

(** X11. The writer never goes back to an earlier phase: a call that
    returns an error leaves the phase as it is, a call moves the phase
    forward by one step at most, and over any sequence of calls the phase
    only grows. *)
Theorem Writer_phase_only_advances (w : Writer) (cs1 cs2 : list Call)
    (c : Call) :
  (is_Some (call w c).2 → state (call w c).1 = state w)
  ∧ WriterState_int (state w) ≤ WriterState_int (state (call w c).1)
    ≤ WriterState_int (state w) + 1
  ∧ WriterState_int (state (calls w cs1))
    ≤ WriterState_int (state (calls w (cs1 ++ cs2))).
Proof.
  split; [apply call_error_keeps_state|]. split; [apply call_state_forward|].
  unfold response.calls. rewrite foldl_app. apply calls_state_forward.
Qed.

Lemma successes_status_late cs : ∀ w : Writer,
  state w ≠ StateStatusPending →
  successes rangeOrder isStatusLineCall w cs = 0.
Proof.
  induction cs as [|c cs IH]; intros w Hw; [done|]. cbn [successes].
  destruct (call w c) as [w' err] eqn:Hc.
  pose proof (call_state_forward w c) as Hf. rewrite Hc in Hf. simpl in Hf.
  rewrite IH by (destruct (state w), (state w'); simpl in *; done || lia).
  destruct c as [code| |]; simpl; try done.
  simpl in Hc. unfold Writer_WriteStatusLine in Hc.
  rewrite bool_decide_eq_true_2 in Hc by done. by simplify_eq.
Qed.

Lemma successes_headers_late cs : ∀ w : Writer,
  state w = StateBodyPending →
  successes rangeOrder isHeadersCall w cs = 0.
Proof.
  induction cs as [|c cs IH]; intros w Hw; [done|]. cbn [successes].
  destruct (call w c) as [w' err] eqn:Hc.
  pose proof (call_state_forward w c) as Hf. rewrite Hc, Hw in Hf.
  simpl in Hf.
  rewrite IH by (destruct (state w'); simpl in *; done || lia).
  destruct c as [|hs|]; simpl; try done.
  simpl in Hc. unfold Writer_WriteHeaders in Hc.
  rewrite bool_decide_eq_true_2 in Hc by (by rewrite Hw). by simplify_eq.
Qed.

(** X12. In any sequence of calls, from any writer, at most one call of
    WriteStatusLine returns no error, and at most one call of WriteHeaders
    returns no error: a response never gets a second status line or a
    second header block through the writer. *)
Theorem Writer_writes_each_phase_once (w : Writer) (cs : list Call) :
  successes rangeOrder isStatusLineCall w cs ≤ 1
  ∧ successes rangeOrder isHeadersCall w cs ≤ 1.
Proof.
  split.
  - revert w. induction cs as [|c cs IH]; intros w; [simpl; lia|].
    cbn [successes]. destruct (call w c) as [w' err] eqn:Hc.
    destruct (isStatusLineCall c && bool_decide (err = None)) eqn:Hs;
      [|specialize (IH w'); lia].
    apply andb_prop in Hs as [Hk He]. apply bool_decide_eq_true in He.
    destruct c as [code| |]; try done. subst err. simpl in Hc.
    apply Writer_WriteStatusLine_ok in Hc as [_ Hw'].
    rewrite successes_status_late; [lia|by rewrite Hw'].
  - revert w. induction cs as [|c cs IH]; intros w; [simpl; lia|].
    cbn [successes]. destruct (call w c) as [w' err] eqn:Hc.
    destruct (isHeadersCall c && bool_decide (err = None)) eqn:Hs;
      [|specialize (IH w'); lia].
    apply andb_prop in Hs as [Hk He]. apply bool_decide_eq_true in He.
    destruct c as [|hs|]; try done. subst err.
    destruct (call_step rangeOrder w (CallWriteHeaders hs))
      as [Hsame | [(code & [=] & _) | (hs' & _ & _ & _ & Hnew)]].
    + rewrite Hc in Hsame. simpl in *.
      unfold Writer_WriteHeaders in Hc.
      case_bool_decide as Hst; [done|].
      assert (state w = StateHeadersPending) as Hw
        by (by destruct (state w)).
      destruct (WriteHeaders rangeOrder (writer w) hs) as [io [e|]];
        [done|].
      destruct (Write io CRLF) as [io' [n [e|]]]; [done|].
      simplify_eq/=. congruence.
    + rewrite Hc in Hnew. simpl in Hnew.
      rewrite successes_headers_late by done. lia.
Qed.

End writer_more.

Section scripted_writer.
Import response.
Context `{U : UnicodeTables}.
Context (rangeOrder : gmap string string → list (string * string)).

Lemma writeEntries_scripted_ok entries : ∀ log : list bytes,
  writeEntries (IO := scriptedWriter) (log, []) entries
  = ((log ++ (headerLine <$> entries), []), None).
Proof.
  induction entries as [|[k v] entries IH]; intros log; simpl.
  - by rewrite app_nil_r.
  - rewrite IH. by rewrite <-app_assoc.
Qed.

Lemma writeEntries_scripted_fail entries : ∀ (log : list bytes) i e script,
  i < length entries →
  writeEntries (IO := scriptedWriter)
    (log, replicate i None ++ Some e :: script) entries
  = ((log ++ (headerLine <$> take i entries), script), Some e).
Proof.
  induction entries as [|[k v] entries IH]; intros log i e script Hi;
    [simpl in Hi; lia|].
  destruct i as [|i]; simpl.
  - by rewrite app_nil_r.
  - rewrite IH by (simpl in Hi; lia). by rewrite <-app_assoc.
Qed.

(** X13. [WriteHeaders] over a writer that does not fail writes one line
    "key: value" CRLF for every entry of the map, in the order of the
    visit, and returns no error; when a [Write] fails, the lines of the
    entries before it have been written, its error is returned and no
    later entry is written. *)
Theorem WriteHeaders_lines (h : gmap string string) (log : list bytes) :
  WriteHeaders (IO := scriptedWriter) rangeOrder (log, []) h
  = ((log ++ (headerLine <$> rangeOrder h), []), None)
  ∧ ∀ i e script,
      i < length (rangeOrder h) →
      WriteHeaders (IO := scriptedWriter) rangeOrder
        (log, replicate i None ++ Some e :: script) h
      = ((log ++ (headerLine <$> take i (rangeOrder h)), script), Some e).
Proof.
  unfold WriteHeaders. split; [apply writeEntries_scripted_ok|].
  intros i e script Hi. by apply writeEntries_scripted_fail.
Qed.

Lemma route_answerFor path :
  let '(status, body) := tcplistener.route path in
  let '(line, page) := answerFor path in
  body = Bytes page
  ∧ ∀ log : list bytes,
      WriteStatusLine (IO := scriptedWriter) (log, []) status
      = ((log ++ [Bytes line], []), None).
Proof.
  unfold tcplistener.route, answerFor.
  repeat case_bool_decide; split. all: done.
Qed.

Lemma handler_headers (body : string) :
  headers.Set_
    (GetDefaultHeaders (Z.of_nat (length (Bytes body))))
    "Content-Type" "text/html"
  = answerHeaders body.
Proof.
  unfold headers.Set_, answerHeaders, GetDefaultHeaders, headers.NewHeaders.
  replace (str (ToLower (Bytes "Content-Type"))) with "content-type"
    by (vm_compute; reflexivity).
  replace (length (Bytes body)) with (String.length body); [done|].
  induction body as [|c body IH]; [done|]. simpl. by rewrite IH.
Qed.

Lemma handler_on_new_writer (req : request.Request) (log : list bytes) :
  let '(line, page) :=
    answerFor (request.RequestTarget (request.Line req)) in
  tcplistener.handler (IO := scriptedWriter) rangeOrder
    (NewWriter (log, [])) (Some req)
  = (mkWriter (log ++ [Bytes line]
                   ++ (headerLine <$> rangeOrder (answerHeaders page))
                   ++ [CRLF; Bytes page], [])
              StateBodyPending,
     []).
Proof.
  pose proof (route_answerFor (request.RequestTarget (request.Line req)))
    as Hr.
  unfold tcplistener.handler.
  destruct (tcplistener.route _) as [status body].
  destruct (answerFor _) as [line page]. destruct Hr as [-> Hline].
  unfold Writer_WriteStatusLine, NewWriter. simpl state. simpl writer.
  rewrite bool_decide_eq_false_2 by (intros Hn; by apply Hn).
  rewrite Hline, handler_headers.
  unfold Writer_WriteHeaders. simpl state. simpl writer.
  rewrite bool_decide_eq_false_2 by (intros Hn; by apply Hn).
  unfold WriteHeaders. rewrite writeEntries_scripted_ok.
  unfold Writer_WriteBody. simpl.
  by rewrite <-!app_assoc.
Qed.

(** X14. The handler of the server binary, on a new writer that does not
    fail: for every request it writes, in this order, the status line of
    the target ("/400": 400, "/500": 500, anything else: 200), one line
    for each entry that the visit of the header map yields, the blank line
    and the page; the Content-Length entry is the length of that page;
    nothing is logged and the writer ends in the body phase.  The header
    map holds both "Content-Type: text/plain" and
    "content-type: text/html". *)
Theorem handler_answer (req : request.Request) (log : list bytes) :
  let '(line, page) :=
    answerFor (request.RequestTarget (request.Line req)) in
  tcplistener.handler (IO := scriptedWriter) rangeOrder
    (NewWriter (log, [])) (Some req)
  = (mkWriter (log ++ [Bytes line]
                   ++ (headerLine <$> rangeOrder (answerHeaders page))
                   ++ [CRLF; Bytes page], [])
              StateBodyPending,
     []).
Proof. apply handler_on_new_writer. Qed.

End scripted_writer.

(** * Further properties: the driver *)

Section driver_more.
Context `{U : UnicodeTables}.
Import headers request.

Lemma parseRequestLine_errors data rl n rest e :
  parseRequestLine data = (rl, n, rest, Some e) → parseError e.
Proof.
  unfold parseRequestLine, parseError.
  destruct (Cut data CRLF) as [[line restOfMsg] []] eqn:H1; [|done].
  destruct (Cut line (Bytes " ")) as [[method r1] []] eqn:H2;
    simpl negb; cbv iota beta;
    [|intros [= <- <- <- <-]; left; set_solver].
  destruct (Cut r1 (Bytes " ")) as [[target r2] []] eqn:H3;
    simpl negb; cbv iota beta;
    [|intros [= <- <- <- <-]; left; set_solver].
  case_bool_decide as Hv; simpl negb; cbv iota;
    [|intros [= <- <- <- <-]; right; left; eauto].
  destruct (version_literal _ Hv) as [-> ->]. simpl negb. cbv iota beta.
  destruct (existsb _ method); [|done].
  intros [= <- <- <- <-]. right; right; eauto.
Qed.

Lemma Parse_errors (h h' : gmap string string) data n done e :
  Parse h data = (h', (n, done, Some e)) → parseError e.
Proof.
  unfold Parse, parseError. intros Hp.
  repeat (case_match; simplify_eq/=; try done); left; set_solver.
Qed.

Lemma parseSingle_errors r p r' n e :
  parseSingle r p = (r', (n, Some e)) → parseError e.
Proof.
  unfold parseSingle. destruct (state r).
  - destruct (parseRequestLine p) as [[[rl m] rest] [e0|]] eqn:Hp.
    + intros [= <- <- <-]. by eapply parseRequestLine_errors.
    + case_bool_decide as Hm; [done|].
      apply parseRequestLine_pointer in Hp as [Hrl _].
      destruct Hrl as [x ->]; done.
  - done.
  - destruct (Parse _ p) as [hs' [[m done] [e0|]]] eqn:Hp.
    + intros [= <- <- <-]. by eapply Parse_errors.
    + case_bool_decide; [done|]. by destruct done.
Qed.

Lemma parse_from_errors k : ∀ r p t r' n e,
  length p - t ≤ k →
  parse_from r p t = Some (r', (n, Some e)) → parseError e.
Proof.
  induction k as [|k IH]; intros r p t r1 n1 e1 Hk;
    rewrite parse_from_unfold;
    repeat case_bool_decide; try done; try lia.
  destruct (parseSingle r (drop t p)) as [r' [n [e|]]] eqn:Hs.
  - intros [= <- <- <-]. by eapply parseSingle_errors.
  - case_bool_decide; [done|]. apply IH. lia.
Qed.

Lemma parse_errors r p r' n e :
  parse r p = Some (r', (n, Some e)) → parseError e.
Proof. rewrite parse_eq. by apply (parse_from_errors (length p)); lia. Qed.

Lemma readLoop_outcome rd : ∀ req buf,
  ∃ res, readLoop req buf rd = Some res
    ∧ ((∃ r, res = (Some r, None) ∧ state r = requestStateDone)
       ∨ (∃ e, res = (None, Some e)
               ∧ (e ∈ readerErrors rd ∨ parseError e))).
Proof.
  induction rd as [|[data err] rd IH]; intros req buf.
  - rewrite readLoop_nil. eexists. split; [done|]. left. eauto.
  - cbn [readLoop]. case_bool_decide as Hd.
    { eexists. split; [done|]. left. eauto. }
    case_bool_decide as He.
    { destruct He as [[e ->] _]. eexists. split; [done|]. right.
      exists e. split; [done|]. left. unfold readerErrors. simpl.
      set_solver. }
    case_bool_decide as Heof.
    { eexists. split; [done|]. left. eauto. }
    destruct (parse_total_bounded req (buf ++ data))
      as (r' & n & perr & Hp & Hn).
    rewrite Hp. destruct perr as [e|].
    { eexists. split; [done|]. right. exists e. split; [done|]. right.
      by eapply parse_errors. }
    assert (∀ b, ∃ res, readLoop r' b rd = Some res
      ∧ ((∃ r, res = (Some r, None) ∧ state r = requestStateDone)
         ∨ (∃ e, res = (None, Some e)
                 ∧ (e ∈ readerErrors ((data, err) :: rd)
                    ∨ parseError e)))) as IH'.
    { intros b. destruct (IH r' b) as (res & Hres & Hshape).
      exists res. split; [done|].
      destruct Hshape as [?|(e & ? & [Hin|?])]; [by left|right..];
        exists e; (split; [done|]); [left|by right].
      unfold readerErrors in *. simpl. destruct err; set_solver. }
    unfold reslice. case_bool_decide; [|by apply IH'].
    rewrite bool_decide_eq_true_2 by done. apply IH'.
Qed.

(** X15. The runs that end.  For a reader whose reads come to an end
    (finitely many reads, then io.EOF for ever, or an error on the way),
    the outcome of [RequestFromReader] is a request or an error, never both
    and never neither; a request that is returned is in state Done; an
    error that is returned is an error the reader returned or one of the
    errors of the two line parsers, so that on such a run no slice is cut
    out of range, no nil pointer is followed, and the loop of [parse]
    ends in every call.  A reader that never ends is outside this
    statement. *)
Theorem RequestFromReader_outcome (reader : Reader) :
  ∃ res, RequestFromReader reader = Some res
    ∧ ((∃ r, res = (Some r, None) ∧ state r = requestStateDone)
       ∨ (∃ e, res = (None, Some e)
               ∧ (e ∈ readerErrors reader ∨ parseError e))).
Proof. apply readLoop_outcome. Qed.

End driver_more.

Section driver_reads.
Context `{U : UnicodeTables}.
Import headers request.

Lemma readLoop_reader_error cs (data : bytes) e rd : ∀ r0 b0 req buf,
  pending r0 b0 cs = Some (req, buf) →
  e ≠ io_EOF →
  readLoop r0 b0 (deliver cs ++ (data, Some e) :: rd) = Some (None, Some e).
Proof.
  induction cs as [|c cs IH]; intros r0 b0 req buf; cbn [pending];
    case_bool_decide as Hd; try done.
  - intros [= <- <-] He. simpl app. cbn [readLoop].
    rewrite bool_decide_eq_false_2 by done.
    rewrite bool_decide_eq_true_2; [done|]. split; [eauto|congruence].
  - intros Hp He. rewrite deliver_cons. simpl app.
    rewrite readLoop_chunk by done.
    destruct (parse r0 (b0 ++ c)) as [[r1 [n [e1|]]]|]; try done.
    by eapply IH.
Qed.

(** X16. An error of the reader other than io.EOF, met while the request
    is not complete, ends [RequestFromReader] with that error and without
    a request; the bytes that the same read delivered are not parsed. *)
Theorem reader_error_is_returned (cs : list bytes) (data : bytes)
    (e : error) (rd : Reader) (req : Request) (buf : bytes) :
  pending newRequest [] cs = Some (req, buf) →
  e ≠ io_EOF →
  RequestFromReader (deliver cs ++ (data, Some e) :: rd)
  = Some (None, Some e).
Proof. apply readLoop_reader_error. Qed.

Lemma readLoop_congr (rd1 rd2 : Reader) :
  (∀ req buf, readLoop req buf rd1 = readLoop req buf rd2) →
  ∀ pre req buf,
    readLoop req buf (pre ++ rd1) = readLoop req buf (pre ++ rd2).
Proof.
  intros Heq pre. induction pre as [|[data err] pre IH]; intros req buf;
    [apply Heq|].
  simpl app. cbn [readLoop]. repeat case_bool_decide; try done.
  all: destruct (parse req (buf ++ data)) as [[r' [n [e|]]]|]; try done.
  all: case_bool_decide; [destruct (reslice _ _); [|done]|]; apply IH.
Qed.

(** X17. io.EOF may come with the last bytes or after them: a read that
    delivers bytes together with io.EOF is parsed like the same bytes
    delivered with no error, and a read of no bytes with io.EOF is the end
    of the stream, whatever the reader would return afterwards. *)
Theorem EOF_with_or_after_the_last_bytes (pre rd : Reader) (data : bytes) :
  (data ≠ [] →
   RequestFromReader (pre ++ (data, Some io_EOF) :: rd)
   = RequestFromReader (pre ++ (data, None) :: rd))
  ∧ RequestFromReader (pre ++ ([], Some io_EOF) :: rd)
    = RequestFromReader pre.
Proof.
  unfold RequestFromReader. split.
  - intros Hdata. apply readLoop_congr. intros req buf. cbn [readLoop].
    case_bool_decide; [done|].
    rewrite !bool_decide_eq_false_2; [done|..].
    + intros [_ [=]].
    + intros [[? [=]] _].
    + intros [Hl _]. by destruct data.
    + intros [_ Hne]. by apply Hne.
  - rewrite <-(app_nil_r pre) at 2. apply readLoop_congr.
    intros req buf. cbn [readLoop]. case_bool_decide as Hd; [done|].
    rewrite bool_decide_eq_false_2 by (intros [_ Hne]; by apply Hne).
    by rewrite bool_decide_eq_true_2.
Qed.

(** Chunk boundaries among reads without error do not matter, whatever
    the reader returns after them. *)
Lemma readLoop_concat_then cs rd : ∀ req buf,
  parse req buf = Some (req, (0, None)) →
  readLoop req buf (deliver cs ++ rd)
  = readLoop req buf ((concat cs, None) :: rd).
Proof.
  induction cs as [|c cs IH]; intros req buf Hst.
  - destruct (decide (state req = requestStateDone)) as [Hd|Hd];
      [by rewrite !readLoop_done|].
    rewrite readLoop_chunk by done.
    simpl concat. by rewrite app_nil_r, Hst, drop_0.
  - destruct (decide (state req = requestStateDone)) as [Hd|Hd];
      [by rewrite !readLoop_done|].
    rewrite deliver_cons. simpl app. rewrite !readLoop_chunk by done.
    simpl concat. rewrite app_assoc.
    destruct (parse_total_bounded req (buf ++ c)) as (r1 & n & e & Hp & Hn).
    rewrite (parse_app _ _ (concat cs) _ _ _ Hp), Hp.
    destruct e as [e|]; [done|].
    rewrite (IH _ _ (parse_stable _ _ _ _ Hp)).
    destruct (decide (state r1 = requestStateDone)) as [Hd1|Hd1].
    + rewrite readLoop_done, (parse_done _ _ Hd1) by done.
      simpl. by rewrite readLoop_done.
    + rewrite readLoop_chunk by done.
      destruct (parse r1 (drop n (buf ++ c) ++ concat cs))
        as [[r2 [m [e2|]]]|]; simpl; try done.
      by rewrite <-drop_drop, (drop_app_le (buf ++ c)).
Qed.

Lemma readLoop_after_Done (data trailing : bytes) (r : Request)
    (n : nat) (cs : list bytes) (rd : Reader) :
  parse newRequest data = Some (r, (n, None)) →
  state r = requestStateDone →
  concat cs = data ++ trailing →
  RequestFromReader (deliver cs ++ rd) = Some (Some r, None).
Proof.
  intros Hp Hd Hcs. unfold RequestFromReader.
  rewrite readLoop_concat_then by apply parse_newRequest_nil.
  rewrite readLoop_chunk by done. simpl app.
  rewrite Hcs, (parse_app _ _ trailing _ _ _ Hp), (parse_done _ _ Hd).
  simpl. by rewrite readLoop_done.
Qed.

(** X18. Once the blank line is in, nothing else is looked at: when [parse]
    takes the bytes [data] of a new request to Done, [RequestFromReader]
    returns that request for every way of reading [data] followed by any
    bytes at all, and whatever the reader returns after these reads, an
    error included. *)
Theorem nothing_is_read_after_Done (data trailing : bytes) (r : Request)
    (n : nat) (cs : list bytes) (rd : Reader) :
  parse newRequest data = Some (r, (n, None)) →
  state r = requestStateDone →
  concat cs = data ++ trailing →
  RequestFromReader (deliver cs ++ rd) = Some (Some r, None).
Proof. apply readLoop_after_Done. Qed.

End driver_reads.

Section driver_lines.
Context `{U : UnicodeTables}.
Import headers request.

Lemma parseSingle_progress r q i r' m err :
  Index q CRLF = Some i →
  state r ≠ requestStateDone →
  parseSingle r q = (r', (m, err)) →
  m ≠ 0 ∨ is_Some err.
Proof.
  intros Hi Hd. unfold parseSingle. destruct (state r); [|done|].
  - unfold parseRequestLine, Cut. rewrite Hi. simpl negb. cbv iota beta.
    intros Hs. repeat (case_match; simplify_eq/=; eauto).
    all: try (left; lia).
    all: match goal with
         | H : bool_decide _ = true |- _ =>
             apply bool_decide_eq_true in H; lia
         end.
  - unfold Parse. rewrite Hi.
    intros Hs. repeat (case_match; simplify_eq/=; eauto).
    all: try (left; lia).
    all: match goal with
         | H : bool_decide _ = true |- _ =>
             apply bool_decide_eq_true in H; lia
         end.
Qed.

(** X19. [parse] consumes every complete line: when it returns without
    error and the request is not Done, what it leaves in the buffer holds
    no CRLF. *)
Theorem parse_leaves_no_complete_line (r r' : Request) (p : bytes)
    (n : nat) :
  parse r p = Some (r', (n, None)) →
  state r' ≠ requestStateDone →
  Index (drop n p) CRLF = None.
Proof.
  intros Hp Hd. apply parse_stable in Hp. generalize dependent (drop n p).
  intros q Hp.
  destruct (Index q CRLF) as [i|] eqn:Hi; [exfalso|done].
  rewrite parse_eq, parse_from_unfold, drop_0 in Hp.
  rewrite bool_decide_eq_false_2 in Hp by done.
  case_bool_decide as Hl;
    [destruct q; [by vm_compute in Hi|simpl in Hl; lia]|].
  destruct (parseSingle r' q) as [r2 [m err]] eqn:Hs.
  pose proof (parseSingle_bound _ _ _ _ _ Hs) as Hb.
  destruct (parseSingle_progress _ _ _ _ _ _ Hi Hd Hs) as [Hm|[e ->]];
    [|done].
  destruct err; [done|]. rewrite bool_decide_eq_false_2 in Hp by done.
  apply (parse_from_bound (length q)) in Hp; lia.
Qed.

Lemma parse_blank_line rl (h : gmap string string) :
  parse (mkRequest rl (Some h) requestStateParsingHeaders) CRLF
  = Some (mkRequest rl (Some h) requestStateDone, (2, None)).
Proof. reflexivity. Qed.

Lemma parse_well_formed method target fields :
  forallb isUpper method = true →
  " "%char ∉ target →
  Index target CRLF = None →
  Forall (λ f : bytes * bytes, validName f.1 ∧ Index f.2 CRLF = None)
         fields →
  parse newRequest (requestBytes method target fields)
  = Some (mkRequest (mkRequestLine "1.1" (str target) (str method))
                    (Some (foldl addField ∅ fields)) requestStateDone,
          (length (requestBytes method target fields), None)).
Proof.
  intros Hm Ht Hc Hf. unfold requestBytes.
  set (line := requestLine method target ++ CRLF).
  set (fieldBytes := concat ((λ f, fieldLine f.1 f.2) <$> fields)).
  set (rl := mkRequestLine "1.1" (str target) (str method)).
  assert (length line = length (requestLine method target) + 2) as Hlen
    by (unfold line; rewrite length_app; done).
  replace (requestLine method target ++ CRLF ++ fieldBytes ++ CRLF)
    with (line ++ fieldBytes ++ CRLF)
    by (unfold line; by rewrite <-!app_assoc).
  rewrite (parse_line _ _ _ (mkRequest rl None requestStateParsingHeaders)).
  - rewrite parse_eq, <-(parse_from_touch _ _ 0), <-parse_eq
      by (rewrite length_app; simpl; lia).
    change (touch (mkRequest rl None requestStateParsingHeaders))
      with (mkRequest rl (Some ∅) requestStateParsingHeaders).
    rewrite (parse_app _ _ CRLF _ _ _ (parse_lines rl fields ∅ Hf)).
    rewrite drop_all, app_nil_l, parse_blank_line.
    unfold shift. simpl. do 3 f_equal. rewrite !length_app.
    fold fieldBytes. simpl. lia.
  - done.
  - lia.
  - unfold line.
    rewrite <-(app_nil_r CRLF), (Index_CRLF_terminator _ []); [done|].
    by apply requestLine_no_CRLF.
  - unfold parseSingle. simpl state. cbv iota. unfold line.
    rewrite <-(app_nil_r CRLF) at 1.
    rewrite parseRequestLine_ok by done.
    rewrite bool_decide_eq_false_2 by lia. by rewrite length_app.
Qed.

(** X20. A well-formed request is parsed to its parts: for a method of
    capital letters, a target without space or CRLF and valid field lines
    of any names, every way of reading the request line, the field lines
    and the blank line, followed by any bytes and any later reads, gives
    the request with that method and target, version "1.1", the header map
    built from the field lines in order, and state Done. *)
Theorem well_formed_request_is_parsed (method target trailing : bytes)
    (fields : list (bytes * bytes)) (cs : list bytes) (rd : Reader) :
  forallb isUpper method = true →
  (" "%char ∉ target) →
  Index target CRLF = None →
  Forall (λ f : bytes * bytes, validName f.1 ∧ Index f.2 CRLF = None)
         fields →
  concat cs = requestBytes method target fields ++ trailing →
  RequestFromReader (deliver cs ++ rd)
  = Some (Some (mkRequest (mkRequestLine "1.1" (str target) (str method))
                          (Some (foldl addField ∅ fields))
                          requestStateDone),
          None).
Proof.
  intros Hm Ht Hc Hf Hcs.
  by eapply readLoop_after_Done; [apply parse_well_formed|..].
Qed.

End driver_lines.

(** * The bytes that [parse] counts *)

Section consumed_lines.
Context `{U : UnicodeTables}.
Import headers request.

Lemma touch_touch r : touch (touch r) = touch r.
Proof. unfold touch. by destruct (state r) eqn:Hst; simpl; rewrite ?Hst. Qed.

Lemma Parse_failed_map (h h' : gmap string string) data n done e :
  Parse h data = (h', (n, done, Some e)) → h' = h.
Proof.
  unfold Parse.
  destruct (Index data CRLF) as [idx|]; [|done].
  case_bool_decide; [done|].
  destruct (Cut _ _) as [[key remaining] []];
    simpl negb; cbv iota beta; [|by intros [= <-]].
  destruct (last key); [|by intros [= <-]].
  case_bool_decide; [by intros [= <-]|].
  destruct (forallb isTokenChar _); simpl negb; cbv iota beta;
    [done|by intros [= <-]].
Qed.

Lemma Parse_counts_line (h h' : gmap string string) data m done :
  Parse h data = (h', (m, done, None)) →
  m ≠ 0 →
  ∃ idx, Index data CRLF = Some idx ∧ m = idx + 2.
Proof.
  unfold Parse.
  destruct (Index data CRLF) as [idx|]; [|by intros [= <- <- <-]].
  intros Hp Hm. exists idx. split; [done|]. revert Hp.
  case_bool_decide; [by intros [= <- <- <-]|].
  destruct (Cut _ _) as [[key remaining] []];
    simpl negb; cbv iota beta; [|done].
  destruct (last key); [|done].
  case_bool_decide; [done|].
  destruct (forallb isTokenChar _); simpl negb; cbv iota beta; [|done].
  by intros [= <- <- <-].
Qed.

Lemma parseSingle_failed r q r1 m e :
  parseSingle r q = (r1, (m, Some e)) → r1 = touch r.
Proof.
  unfold parseSingle, touch. destruct (state r) eqn:Hst.
  - destruct (parseRequestLine q) as [[[rl k] rest] [e0|]];
      [by intros [= <-]|].
    case_bool_decide; [done|]. destruct rl; [done|by intros [= <-]].
  - done.
  - destruct (Parse _ q) as [hs' [[k done] [e0|]]] eqn:Hp.
    + apply Parse_failed_map in Hp as ->. intros [= <-].
      by destruct (Headers r).
    + case_bool_decide; [done|]. by destruct done.
Qed.

(** A call of [parseSingle] that counts bytes counts one whole line: the
    bytes up to the first CRLF of its slice, and that CRLF. *)
Lemma parseSingle_counts_line r q r1 m :
  parseSingle r q = (r1, (m, None)) →
  m ≠ 0 →
  ∃ l rest, q = l ++ CRLF ++ rest
            ∧ Index l CRLF = None ∧ m = length l + 2.
Proof.
  unfold parseSingle. destruct (state r) eqn:Hst.
  - destruct (parseRequestLine q) as [[[rl k] rest] [e0|]] eqn:Hp; [done|].
    case_bool_decide as Hk; [by intros [= <- <-]|].
    destruct rl as [rl|]; [|done]. intros [= <- <-] _.
    apply parseRequestLine_inverse in Hp as (_ & _ & _ & _ & Hq & Hl & Hn).
    eauto.
  - by intros [= <- <-].
  - destruct (Parse _ q) as [hs' [[k dn] [e0|]]] eqn:Hp; [done|].
    intros Hs Hm.
    assert (m = k) as ->.
    { revert Hs. case_bool_decide; [|destruct dn]; by intros [= <- <-]. }
    destruct (Parse_counts_line _ _ _ _ _ Hp Hm) as (idx & Hi & ->).
    pose proof (Index_bound _ _ _ Hi) as Hb. simpl in Hb.
    destruct (proj1 (Index_Some_spec _ _ _ Hi)) as [post Hq].
    exists (take idx q), post. split; [done|]. split.
    + by apply (Index_take_None _ _ _ Hi).
    + rewrite length_take. lia.
Qed.

Lemma parse_from_lines k : ∀ r p t r' n err,
  length p - t ≤ k → t ≤ length p →
  parse_from r p t = Some (r', (n, err)) →
  ∃ lines r0,
    take (n - t) (drop t p) = withCRLF lines
    ∧ Forall (λ l, Index l CRLF = None) lines
    ∧ consumeLines r lines (drop n p) = Some r0
    ∧ touch r' = touch r0.
Proof.
  induction k as [|k IH]; intros r p t r' n err Hk Ht;
    rewrite parse_from_unfold.
  all: case_bool_decide as Hd;
    [intros [= <- <- <-]; exists [], r;
     by rewrite Nat.sub_diag, take_0|].
  all: case_bool_decide as Hl;
    [intros [= <- <- <-]; exists [], r;
     by rewrite Nat.sub_diag, take_0|].
  { exfalso. lia. }
  destruct (parseSingle r (drop t p)) as [r1 [m [e|]]] eqn:Hs.
  { intros [= <- <- <-]. exists [], r.
    rewrite Nat.sub_diag, take_0. repeat split; [done..|].
    apply parseSingle_failed in Hs as ->. apply touch_touch. }
  case_bool_decide as Hm.
  { intros [= <- <- <-]. exists [], r.
    rewrite Nat.sub_diag, take_0. repeat split; [done..|].
    subst m. apply parseSingle_zero in Hs as ->. apply touch_touch. }
  intros Hp.
  pose proof (parseSingle_bound _ _ _ _ _ Hs) as Hb.
  rewrite length_drop in Hb.
  assert (length p - (t + m) ≤ k) as Hk' by lia.
  assert (t + m ≤ length p) as Ht' by lia.
  pose proof (parse_from_bound k _ _ _ _ _ _ Hk' Ht' Hp) as Hn.
  destruct (IH _ _ _ _ _ _ Hk' Ht' Hp)
    as (lines & r0 & Htake & Hlines & Hc & Hr).
  destruct (parseSingle_counts_line _ _ _ _ Hs Hm)
    as (l & rest & Hq & Hnl & ->).
  assert (drop (t + (length l + 2)) p = rest) as Hrest.
  { rewrite <-drop_drop, Hq, app_assoc, drop_app_length'; [done|].
    rewrite length_app. simpl. lia. }
  assert (withCRLF lines ++ drop n p = rest) as Hall.
  { rewrite <-Htake, <-Hrest.
    replace (drop n p)
      with (drop (n - (t + (length l + 2)))
              (drop (t + (length l + 2)) p))
      by (rewrite drop_drop; f_equal; lia).
    apply take_drop. }
  exists (l :: lines), r0. split; [|split; [|split]].
  - unfold withCRLF. rewrite fmap_cons. simpl concat.
    fold (withCRLF lines). rewrite <-Htake, Hq, Hrest.
    replace (n - t) with (length (l ++ CRLF) + (n - (t + (length l + 2))))
      by (rewrite length_app; simpl; lia).
    rewrite (app_assoc l CRLF rest), take_app_add'; [|done].
    by rewrite <-app_assoc.
  - by apply Forall_cons_2.
  - cbn [consumeLines]. rewrite Hall, <-Hq, Hs.
    by rewrite bool_decide_eq_true_2.
  - done.
Qed.

(** C10. For every request state and every slice [p], [parse] returns, and
    the count [n] of bytes it reports consumed satisfies 0 <= n <= len(p),
    so that the driver's [buf[n:]] is within bounds.  No byte is counted
    that was not parsed: the [n] bytes are whole lines, each ended by the
    first CRLF after its start, which successive calls of [parseSingle]
    consumed one by one on the slice [p[t:]] that begins with the line,
    each call reporting the length of its line and CRLF; the request
    returned is the request after these lines (with an empty header map
    for a nil one when a last call consumed nothing). *)
Theorem parse_consumes_within_slice (r : Request) (p : bytes) :
  ∃ r' n err,
    parse r p = Some (r', (n, err))
    ∧ 0 ≤ n ≤ length p
    ∧ reslice p n = Some (drop n p)
    ∧ ∃ lines r0,
        take n p = withCRLF lines
        ∧ Forall (λ l, Index l CRLF = None) lines
        ∧ consumeLines r lines (drop n p) = Some r0
        ∧ touch r' = touch r0.
Proof.
  destruct (parse_total_bounded r p) as (r' & n & err & Hp & Hn).
  exists r', n, err. split; [done|]. split; [lia|].
  split; [unfold reslice; by rewrite bool_decide_eq_true_2|].
  rewrite parse_eq in Hp.
  assert (length p - 0 ≤ length p) as Hk by lia.
  assert (0 ≤ length p) as Ht by lia.
  destruct (parse_from_lines (length p) _ _ _ _ _ _ Hk Ht Hp)
    as (lines & r0 & Htake & Hrest).
  exists lines, r0. by rewrite Nat.sub_0_r, drop_0 in Htake.
Qed.

End consumed_lines.

(** * Further properties: what a returned request looks like *)

Section driver_invariant.
Context `{U : UnicodeTables}.
Import headers request.

Lemma Parse_tokenKeys (h h' : gmap string string) data res :
  Parse h data = (h', res) → tokenKeys h → tokenKeys h'.
Proof.
  unfold Parse. intros Hp Hh.
  destruct (Index data CRLF) as [idx|]; [|by simplify_eq].
  case_bool_decide; [by simplify_eq|].
  destruct (Cut _ _) as [[key remaining] []];
    simpl negb in Hp; cbv iota beta in Hp; [|by simplify_eq].
  destruct (last key); [|by simplify_eq].
  case_bool_decide; [by simplify_eq|].
  destruct (forallb isTokenChar _) eqn:Htok;
    simpl negb in Hp; cbv iota beta in Hp; [|by simplify_eq].
  injection Hp as <- _. intros k v.
  destruct (decide (k = str (ToLower (TrimLeft key " ")))) as [->|Hne].
  - by rewrite Bytes_str.
  - destruct (h !! str _); rewrite lookup_insert_ne by done; apply Hh.
Qed.

Lemma parseSingle_invariant r p r' res :
  parseSingle r p = (r', res) → requestInvariant r → requestInvariant r'.
Proof.
  unfold parseSingle, requestInvariant. destruct (state r).
  - destruct (parseRequestLine p) as [[[rl m] rest] err] eqn:Hp.
    destruct err; [by intros [= <- <-]|].
    case_bool_decide; [by intros [= <- <-]|].
    destruct rl as [rl|]; [|by intros [= <- <-]].
    intros [= <- <-] [_ Hh]. simpl. split; [|done].
    apply parseRequestLine_inverse in Hp as (_ & ? & ? & ? & _).
    by right.
  - by intros [= <- <-].
  - destruct (Parse _ p) as [hs' [[m done] err]] eqn:Hp.
    intros Hr [Hl Hh].
    assert (tokenKeys hs') as Hk.
    { eapply Parse_tokenKeys; [done|].
      destruct (Headers r) as [h|]; [by apply Hh|].
      intros k v. unfold NewHeaders. by rewrite lookup_empty. }
    destruct err; [|case_bool_decide; [|destruct done]];
      injection Hr as <- _; simpl; (split; [done|]); by intros ? [= <-].
Qed.

Lemma parse_from_invariant k : ∀ r p t r' res,
  length p - t ≤ k →
  parse_from r p t = Some (r', res) →
  requestInvariant r → requestInvariant r'.
Proof.
  induction k as [|k IH]; intros r p t r1 res1 Hk;
    rewrite parse_from_unfold;
    repeat case_bool_decide; try lia; try by intros [= <- <-].
  destruct (parseSingle r (drop t p)) as [r' [n [e|]]] eqn:Hs.
  - intros [= <- <-]. by eapply parseSingle_invariant.
  - case_bool_decide.
    + intros [= <- <-]. by eapply parseSingle_invariant.
    + intros Hp Hr. eapply IH; [|exact Hp|by eapply parseSingle_invariant].
      lia.
Qed.

Lemma parse_invariant r p r' res :
  parse r p = Some (r', res) → requestInvariant r → requestInvariant r'.
Proof. rewrite parse_eq. by apply (parse_from_invariant (length p)); lia. Qed.

Lemma with_state_invariant r s :
  requestInvariant r → requestInvariant (with_state r s).
Proof. done. Qed.

Lemma readLoop_invariant rd : ∀ req buf r err,
  readLoop req buf rd = Some (Some r, err) →
  requestInvariant req → requestInvariant r.
Proof.
  induction rd as [|[data e] rd IH]; intros req buf r err; cbn [readLoop].
  - case_bool_decide; by intros [= <- <-].
  - case_bool_decide; [by intros [= <- <-]|].
    case_bool_decide; [done|].
    case_bool_decide; [by intros [= <- <-]|].
    destruct (parse req (buf ++ data)) as [[r' [n [e1|]]]|] eqn:Hp;
      [done| |done].
    intros Hl Hr. apply (parse_invariant _ _ _ _ Hp) in Hr.
    case_bool_decide; [destruct (reslice _ _); [|done]|]; by eapply IH.
Qed.

(** X21. What a returned request looks like: the request line of every
    request that [RequestFromReader] returns is either still the zero
    value (the stream ended before a first line came in) or has version
    "1.1", a method of capital letters and a target without space; and
    every key of its header map is made of token characters, which
    include no capital letter. *)
Theorem returned_request_invariant (reader : Reader) (r : Request)
    (err : option error) :
  RequestFromReader reader = Some (Some r, err) →
  lineInvariant (Line r)
  ∧ ∀ h k v, Headers r = Some h → h !! k = Some v →
             forallb isTokenChar (Bytes k) = true
             ∧ forallb (λ b, negb (isUpper b)) (Bytes k) = true.
Proof.
  intros Hr. apply readLoop_invariant in Hr as [Hl Hh].
  - split; [done|]. intros h k v Hhs Hk.
    pose proof (Hh h Hhs k v Hk) as Htok. split; [done|].
    apply forallb_forall. intros b Hb.
    apply (proj1 (forallb_forall _ _) Htok) in Hb. revert Hb.
    destruct b as [[] [] [] [] [] [] [] []]; vm_compute; congruence.
  - split; [by left|done].
Qed.

End driver_invariant.

(** * Further properties: one connection *)

Section connection.
Context `{U : UnicodeTables}.
Import headers request response.

(** X22. One connection: [handle] either ends without a single [Write],
    when [RequestFromReader] returns an error, a malformed request
    included, or calls the handler once, on a new writer over the
    connection, with a request that is not nil and is in state Done. *)
Theorem handle_outcome {W : Type} `{IO : IoWriter W}
    (handler : server.Handler) (reader : Reader) (io : W) :
  (∃ e, RequestFromReader reader = Some (None, Some e)
        ∧ server.handle handler reader io = Some (io, []))
  ∨ (∃ r, RequestFromReader reader = Some (Some r, None)
          ∧ request.state r = requestStateDone
          ∧ server.handle handler reader io
            = Some (writer (handler (NewWriter io) (Some r)).1,
                    (handler (NewWriter io) (Some r)).2)).
Proof.
  unfold server.handle.
  destruct (readLoop_outcome reader newRequest [])
    as (res & Hres & [(r & -> & Hd)|(e & -> & _)]);
    fold (RequestFromReader reader) in Hres; rewrite Hres.
  - right. exists r. split; [done|]. split; [done|].
    by destruct (handler _ _).
  - left. by exists e.
Qed.

(** X23. From the bytes of a connection to the bytes of the answer: for a
    well-formed request, read in any pieces and followed by anything,
    [handle] with the handler of the server binary over a connection
    whose writes do not fail writes the status line of the target, the
    header lines, the blank line and the page, and logs nothing. *)
Theorem handle_answers_well_formed_request
    (rangeOrder : gmap string string → list (string * string))
    (method target trailing : bytes) (fields : list (bytes * bytes))
    (cs : list bytes) (rd : Reader) (log : list bytes) :
  forallb isUpper method = true →
  (" "%char ∉ target) →
  Index target CRLF = None →
  Forall (λ f : bytes * bytes, validName f.1 ∧ Index f.2 CRLF = None)
         fields →
  concat cs = requestBytes method target fields ++ trailing →
  server.handle (tcplistener.handler (IO := scriptedWriter) rangeOrder)
    (deliver cs ++ rd) (log, [])
  = Some ((log ++ [Bytes (answerFor (str target)).1]
               ++ (headerLine
                     <$> rangeOrder (answerHeaders (answerFor (str target)).2))
               ++ [CRLF; Bytes (answerFor (str target)).2], []),
          []).
Proof.
  intros Hm Ht Hc Hf Hcs. unfold server.handle.
  rewrite (readLoop_after_Done _ trailing _ _ cs rd
             (parse_well_formed _ _ _ Hm Ht Hc Hf) eq_refl Hcs).
  pose proof (handler_on_new_writer rangeOrder
    (mkRequest (mkRequestLine "1.1" (str target) (str method))
               (Some (foldl addField ∅ fields)) requestStateDone) log)
    as Hh.
  cbn [Line RequestTarget] in Hh.
  destruct (answerFor (str target)) as [line page].
  by rewrite Hh.
Qed.

End connection.

(** * Further properties: the reader of the tests *)

Section test_reader.
Import request.
Context (intSize : Z).

Lemma chunks_nil fuel k : chunks fuel k [] = [].
Proof. by destruct fuel. Qed.

Lemma wrap_small (z : Z) :
  (0 ≤ z < 2 ^ (intSize - 1))%Z → request_test.wrap intSize z = z.
Proof.
  intros Hz. unfold request_test.wrap.
  assert (0 ≤ intSize - 1)%Z as Hs.
  { destruct (Z.lt_ge_cases (intSize - 1) 0) as [Hneg|]; [|done].
    rewrite (Z.pow_neg_r 2 _ Hneg) in Hz. lia. }
  replace intSize with (Z.succ (intSize - 1)) at 2 by lia.
  rewrite Z.pow_succ_r by done.
  rewrite Z.mod_small by lia. lia.
Qed.

(** Within the range of [int], [Read] copies the next
    [min(numBytesPerRead, len(p))] bytes, or what is left of the data. *)
Lemma Read_in_range (s : string) (k : Z) (p lenp : nat) :
  (1 ≤ k)%Z →
  (Z.of_nat (length (Bytes s)) + k < 2 ^ (intSize - 1))%Z →
  p < length (Bytes s) →
  let src := take ((p + Z.to_nat k) `min` length (Bytes s) - p)
                  (drop p (Bytes s)) in
  let n := lenp `min` length src in
  request_test.Read intSize (request_test.mkChunkReader s k (Z.of_nat p))
                    lenp
  = (request_test.mkChunkReader s k (Z.of_nat (p + n)), (take n src, None)).
Proof.
  intros Hk Hmax Hp src n. unfold request_test.Read.
  cbn [request_test.data request_test.pos request_test.numBytesPerRead].
  rewrite bool_decide_eq_false_2 by lia.
  rewrite (wrap_small (Z.of_nat p + k)) by lia.
  rewrite bool_decide_eq_true_2 by lia.
  rewrite Nat2Z.id.
  replace (Z.to_nat ((Z.of_nat p + k) `min` Z.of_nat (length (Bytes s))
                     - Z.of_nat p))
    with ((p + Z.to_nat k) `min` length (Bytes s) - p) by lia.
  fold src. fold n.
  assert (n ≤ length (Bytes s) - p) as Hn.
  { unfold n, src. rewrite length_take, length_drop. lia. }
  rewrite wrap_small by lia. by rewrite Nat2Z.inj_add.
Qed.

Lemma reads_chunks (s : string) (k : Z) :
  (1 ≤ k)%Z →
  (Z.of_nat (length (Bytes s)) + k < 2 ^ (intSize - 1))%Z →
  ∀ fuel1 fuel2 p,
    length (Bytes s) - p < fuel1 →
    length (Bytes s) - p ≤ fuel2 →
    request_test.reads intSize fuel1
      (request_test.mkChunkReader s k (Z.of_nat p))
    = Some (deliver (chunks fuel2 (Z.to_nat k `min` chunkSize)
                            (drop p (Bytes s)))).
Proof.
  intros Hk Hmax.
  induction fuel1 as [|fuel1 IH]; intros fuel2 p H1 H2; [lia|].
  cbn [request_test.reads].
  destruct (decide (length (Bytes s) ≤ p)) as [Hp|Hp].
  { unfold request_test.Read.
    cbn [request_test.data request_test.pos].
    rewrite bool_decide_eq_true_2 by lia.
    rewrite bool_decide_eq_true_2 by done.
    by rewrite drop_ge, chunks_nil by done. }
  rewrite Read_in_range by (done || lia). cbv zeta.
  pose proof (length_drop (Bytes s) p) as HD.
  set (D := drop p (Bytes s)) in *.
  set (src := take _ D). set (n := chunkSize `min` length src).
  assert (n = (Z.to_nat k `min` chunkSize) `min` length D) as Hn
    by (unfold n, src; rewrite length_take; lia).
  assert (take n src = take (Z.to_nat k `min` chunkSize) D) as Hb.
  { unfold src. rewrite take_take.
    destruct (decide (Z.to_nat k `min` chunkSize ≤ length D));
      [f_equal; lia|].
    by rewrite !(take_ge D) by lia. }
  rewrite Hb.
  assert (1 ≤ chunkSize) as Hc by (unfold chunkSize; lia).
  destruct fuel2 as [|fuel2]; [lia|].
  destruct D as [|x D'] eqn:HeqD; [simpl in HD; lia|].
  rewrite bool_decide_eq_false_2.
  2:{ intros [Hnil _].
      destruct (Z.to_nat k `min` chunkSize) eqn:Hkk; [lia|done]. }
  cbn [chunks]. rewrite <-HeqD. rewrite (IH fuel2) by lia.
  assert (drop (p + n) (Bytes s)
          = drop (Z.to_nat k `min` chunkSize) (drop p (Bytes s))) as ->;
    [|done].
  rewrite drop_drop.
  destruct (decide (Z.to_nat k `min` chunkSize ≤ length (x :: D'))).
  - f_equal. lia.
  - by rewrite !drop_ge by lia.
Qed.

(** X24. The reader of the tests: for [numBytesPerRead] of at least one
    and small enough that [len(data) + numBytesPerRead] is within the
    range of [int], the calls [Read(chunk)] that [RequestFromReader] makes
    on a [chunkReader] at position zero return, before the first
    [(0, io.EOF)], the data in order in reads of
    [min(numBytesPerRead, 1024)] bytes, the last one of what is left, and
    none of them panics; that end is met within [len(data) + 1] calls. *)
Theorem chunkReader_reads (s : string) (k : Z) (fuel : nat) :
  (1 ≤ k)%Z →
  (Z.of_nat (length (Bytes s)) + k < 2 ^ (intSize - 1))%Z →
  length (Bytes s) < fuel →
  request_test.reads intSize fuel (request_test.mkChunkReader s k 0)
  = Some (chunkReader (Bytes s) (Z.to_nat k)).
Proof.
  intros Hk Hmax Hf. unfold chunkReader.
  change 0%Z with (Z.of_nat 0).
  rewrite (reads_chunks s k Hk Hmax fuel (length (Bytes s)) 0) by lia.
  by rewrite drop_0.
Qed.

End test_reader.

(** * Further properties: the lines of a connection *)

Section connection_lines.
Import request tcplistener_lines.

Lemma str_app (a b : bytes) : str (a ++ b) = str a +:+ str b.
Proof.
  induction a as [|x a IH]; [done|]. unfold str in *.
  simpl string_of_list_ascii. by rewrite IH.
Qed.

Lemma append_nil_r (s : string) : s +:+ "" = s.
Proof.
  induction s as [|x s IH]; [done|].
  change (String x s +:+ "") with (String x (s +:+ "")). by rewrite IH.
Qed.

Lemma append_assoc (a b c : string) : (a +:+ b) +:+ c = a +:+ (b +:+ c).
Proof.
  induction a as [|x a IH]; [done|].
  change (String x ((a +:+ b) +:+ c) = String x (a +:+ (b +:+ c))).
  by rewrite IH.
Qed.

Lemma IndexByte_None (chunk : bytes) (c : byte) :
  IndexByte chunk c = None ↔ c ∉ chunk.
Proof.
  induction chunk as [|x chunk IH]; simpl.
  - split; [intros _; apply not_elem_of_nil|done].
  - rewrite not_elem_of_cons. case_bool_decide as Hx.
    + split; [done|]. intros [Hne _]. by destruct Hne.
    + destruct (IndexByte chunk c) eqn:Hi; simpl.
      * split; [done|]. intros [_ Hc]. by apply IH in Hc.
      * split; [|done]. intros _. split; [congruence|]. by apply IH.
Qed.

Lemma IndexByte_split (chunk : bytes) (c : byte) : ∀ i,
  IndexByte chunk c = Some i →
  ∃ l rest, chunk = l ++ c :: rest ∧ (c ∉ l) ∧ i = length l.
Proof.
  induction chunk as [|x chunk IH]; intros i; simpl; [done|].
  case_bool_decide as Hx.
  - intros [= <-]. exists [], chunk. subst x.
    split; [done|]. split; [apply not_elem_of_nil|done].
  - destruct (IndexByte chunk c) as [j|]; [|done]. intros [= <-].
    destruct (IH j eq_refl) as (l & rest & -> & Hl & ->).
    exists (x :: l), rest. split; [done|]. split; [|done].
    apply not_elem_of_cons. split; [congruence|done].
Qed.

Lemma splitLines_noLF (l : bytes) : ∀ line,
  LF ∉ l → splitLines line l = ([], line +:+ str l).
Proof.
  induction l as [|x l IH]; intros line Hl; simpl.
  - by rewrite append_nil_r.
  - apply not_elem_of_cons in Hl as [Hx Hl].
    rewrite bool_decide_eq_false_2 by congruence.
    rewrite IH by done. by rewrite append_assoc.
Qed.

Lemma splitLines_line (l rest : bytes) : ∀ line,
  LF ∉ l →
  splitLines line (l ++ LF :: rest)
  = ((line +:+ str l) :: (splitLines "" rest).1, (splitLines "" rest).2).
Proof.
  induction l as [|x l IH]; intros line Hl; simpl.
  - by rewrite append_nil_r.
  - apply not_elem_of_cons in Hl as [Hx Hl].
    rewrite bool_decide_eq_false_2 by congruence.
    rewrite IH by done. by rewrite append_assoc.
Qed.

Lemma splitLines_app (c1 c2 : bytes) : ∀ line,
  splitLines line (c1 ++ c2)
  = ((splitLines line c1).1 ++ (splitLines (splitLines line c1).2 c2).1,
     (splitLines (splitLines line c1).2 c2).2).
Proof.
  induction c1 as [|x c1 IH]; intros line; simpl.
  - by destruct (splitLines line c2).
  - case_bool_decide; [|apply IH]. by rewrite IH.
Qed.

Lemma sendLines_splitLines fuel : ∀ (chunk : bytes) line,
  length chunk ≤ fuel →
  ∃ sent line' chunk',
    sendLines fuel line chunk = Some (sent, line', chunk')
    ∧ splitLines line chunk = (sent, line' +:+ str chunk').
Proof.
  induction fuel as [|fuel IH]; intros chunk line Hf;
    destruct (IndexByte chunk LF) as [i|] eqn:Hi.
  - apply IndexByte_split in Hi as (l & rest & -> & _).
    rewrite length_app in Hf. simpl in Hf. lia.
  - exists [], line, chunk. simpl. rewrite Hi. split; [done|].
    apply splitLines_noLF. by apply IndexByte_None.
  - cbn [sendLines]. rewrite Hi.
    apply IndexByte_split in Hi as (l & rest & -> & Hl & ->).
    rewrite take_app_length.
    rewrite drop_app_ge by lia.
    replace (length l + 1 - length l) with 1 by lia.
    change (drop 1 (LF :: rest)) with rest.
    destruct (IH rest "") as (sent & line' & chunk' & -> & Hs).
    { rewrite length_app in Hf. simpl in Hf. lia. }
    eexists _, _, _. split; [done|].
    rewrite splitLines_line by done. by rewrite Hs.
  - exists [], line, chunk. cbn [sendLines]. rewrite Hi. split; [done|].
    apply splitLines_noLF. by apply IndexByte_None.
Qed.

Lemma readLines_deliver (cs : list bytes) (rd : Reader) : ∀ line,
  readLines line (deliver cs ++ rd)
  = match readLines (splitLines line (concat cs)).2 rd with
    | Some (sent', printed) =>
        Some ((splitLines line (concat cs)).1 ++ sent', printed)
    | None => None
    end.
Proof.
  induction cs as [|c cs IH]; intros line.
  - simpl. by destruct (readLines line rd) as [[sent' printed]|].
  - rewrite deliver_cons. simpl app. cbn [readLines].
    destruct (sendLines_splitLines (length c) c line)
      as (sent & line' & chunk' & -> & Hs); [done|].
    rewrite IH. simpl concat. rewrite splitLines_app, Hs. simpl.
    destruct (readLines _ rd) as [[sent' printed]|]; [|done].
    by rewrite app_assoc.
Qed.

Lemma splitLines_terminated (ls : list bytes) (tail : bytes) :
  Forall (λ l, LF ∉ l) ls →
  LF ∉ tail →
  splitLines "" (terminated ls ++ tail) = (str <$> ls, str tail).
Proof.
  intros Hls Ht. induction Hls as [|l ls Hl Hls IH].
  - simpl. by rewrite splitLines_noLF.
  - unfold terminated in *. rewrite fmap_cons. simpl concat.
    rewrite <-!app_assoc. simpl app.
    rewrite splitLines_line by done. by rewrite IH.
Qed.

(** X25. The lines of a connection: whatever the pieces in which the bytes
    are read, [getLinesChannel] sends every text that a line feed ends,
    the empty ones included and without the line feed, in order, and then
    the text after the last line feed when it is not empty; a read that
    returns an error ends the stream, the bytes that came with it are
    dropped, and the error is printed unless it is io.EOF. *)
Theorem getLinesChannel_lines (ls : list bytes) (tail : bytes)
    (cs : list bytes) :
  Forall (λ l, LF ∉ l) ls →
  (LF ∉ tail) →
  concat cs = terminated ls ++ tail →
  let sent := (str <$> ls)
              ++ match tail with [] => [] | _ => [str tail] end in
  getLinesChannel (deliver cs) = Some (sent, [])
  ∧ ∀ d e rd,
      getLinesChannel (deliver cs ++ (d, Some e) :: rd)
      = Some (sent, if bool_decide (e ≠ io_EOF) then [e] else []).
Proof.
  intros Hls Ht Hcs sent. unfold getLinesChannel.
  assert (∀ b : bytes,
    (if bool_decide (String.length (str b) ≠ 0) then [str b] else [])
    = match b with [] => [] | _ => [str b] end) as Hbreak
    by (by intros []).
  split; [rewrite <-(app_nil_r (deliver cs))|intros d e rd];
    rewrite readLines_deliver, Hcs, splitLines_terminated by done;
    cbn [readLines fst snd]; by rewrite Hbreak.
Qed.

End connection_lines.

(** * Further properties: a connection that fails *)

Section failing_connection.
Import response.
Context `{U : UnicodeTables}.
Context (rangeOrder : gmap string string → list (string * string)).

Lemma writeEntries_scripted_pass entries : ∀ (log : list bytes) rest,
  writeEntries (IO := scriptedWriter)
    (log, replicate (length entries) None ++ rest) entries
  = ((log ++ (headerLine <$> entries), rest), None).
Proof.
  induction entries as [|[k v] entries IH]; intros log rest; simpl.
  - by rewrite app_nil_r.
  - rewrite IH. by rewrite <-app_assoc.
Qed.

Lemma route_statusLine path (w : list bytes * list (option error)) :
  (tcplistener.route path).2 = Bytes (answerFor path).2
  ∧ WriteStatusLine (IO := scriptedWriter) w (tcplistener.route path).1
    = ((Write (IoWriter := scriptedWriter) w (Bytes (answerFor path).1)).1,
       (Write (IoWriter := scriptedWriter) w
          (Bytes (answerFor path).1)).2.2).
Proof.
  unfold tcplistener.route, answerFor.
  destruct (bool_decide (path = "/400"));
    [|destruct (bool_decide (path = "/500"))];
    (split; [done|]); by destruct w as [l [|[e|] script]].
Qed.

Lemma handler_failed_write (req : request.Request) (log : list bytes)
    (i : nat) (e : error) (script : list (option error)) :
  let path := request.RequestTarget (request.Line req) in
  let entries := rangeOrder (answerHeaders (answerFor path).2) in
  i < length (answerWrites path entries) →
  tcplistener.handler (IO := scriptedWriter) rangeOrder
    (NewWriter (log, replicate i None ++ Some e :: script)) (Some req)
  = (mkWriter (log ++ take i (answerWrites path entries), script)
              (failurePhase (length entries) i).2,
     [((failurePhase (length entries) i).1, e)]).
Proof.
  intros path entries Hi. unfold tcplistener.handler. fold path.
  pose proof (route_statusLine path) as Hr.
  destruct (tcplistener.route path) as [status body].
  simpl fst in Hr. simpl snd in Hr.
  unfold Writer_WriteStatusLine, NewWriter. simpl state. simpl writer.
  rewrite bool_decide_eq_false_2 by (intros Hn; by apply Hn).
  rewrite (proj2 (Hr _)). destruct (Hr (log, [])) as [-> _].
  rewrite handler_headers. fold entries.
  unfold answerWrites, failurePhase in *.
  rewrite length_cons, length_app, length_fmap in Hi. simpl in Hi.
  destruct i as [|j]; [by rewrite app_nil_r|].
  rewrite bool_decide_eq_false_2 by lia.
  cbn [replicate app Write scriptedWriter fst snd].
  unfold Writer_WriteHeaders. simpl state. simpl writer.
  rewrite bool_decide_eq_false_2 by (intros Hn; by apply Hn).
  unfold WriteHeaders. fold entries. rewrite firstn_cons.
  destruct (decide (j < length entries)) as [Hj|Hj].
  { rewrite writeEntries_scripted_fail by done.
    rewrite bool_decide_eq_true_2 by lia. simpl.
    rewrite take_app_le by (rewrite length_fmap; lia).
    by rewrite fmap_take, <-app_assoc. }
  replace j with (length entries + (j - length entries)) at 1 by lia.
  rewrite replicate_add, <-app_assoc, writeEntries_scripted_pass.
  rewrite take_app_ge by (rewrite length_fmap; lia).
  rewrite length_fmap.
  destruct (j - length entries) as [|[|?]] eqn:Hd; [| |lia].
  - rewrite bool_decide_eq_true_2 by lia. simpl.
    by rewrite app_nil_r, <-app_assoc.
  - rewrite bool_decide_eq_false_2 by lia. simpl.
    unfold Writer_WriteBody. simpl.
    by rewrite <-!app_assoc.
Qed.

(** X26. A connection that fails: when the [Write] number [i] of the
    answer fails, the handler of the server binary has written the [i]
    pieces before it and nothing else, makes no [Write] after it, and logs
    one line with that error: for the status line "Failed to write
    status", for a header line or the blank line "Failed to write
    headers", for the page "Failed to write body"; the writer stays in
    the phase of the failed call. *)
Theorem handler_stops_at_failed_write (req : request.Request)
    (log : list bytes) (i : nat) (e : error)
    (script : list (option error)) :
  let path := request.RequestTarget (request.Line req) in
  let entries := rangeOrder (answerHeaders (answerFor path).2) in
  i < length (answerWrites path entries) →
  tcplistener.handler (IO := scriptedWriter) rangeOrder
    (NewWriter (log, replicate i None ++ Some e :: script)) (Some req)
  = (mkWriter (log ++ take i (answerWrites path entries), script)
              (failurePhase (length entries) i).2,
     [((failurePhase (length entries) i).1, e)]).
Proof. apply handler_failed_write. Qed.

End failing_connection.

(** * The further properties at concrete inputs *)

Section more_concrete_inputs.
Import headers request response.

Ltac concrete :=
  repeat match goal with x := _ |- _ => subst x end;
  cbv [Bytes list_ascii_of_string].

Ltac absent_byte :=
  concrete; repeat (apply not_elem_of_cons; split; [discriminate|]);
  apply not_elem_of_nil.

Ltac valid_name :=
  concrete; split;
  [discriminate
  |repeat apply Forall_cons_2; try apply Forall_nil_2; vm_compute;
   reflexivity].

Lemma parseRequestLine_well_formed_witness :
  let method := Bytes "GET" in
  let target := Bytes "/coffee" in
  let rest := Bytes ("Host: localhost" +:+ crlf) in
  forallb isUpper method = true
  ∧ (" "%char ∉ target)
  ∧ Index target CRLF = None
  ∧ parseRequestLine (requestLine method target ++ CRLF ++ rest)
    = (Some (mkRequestLine "1.1" (str target) (str method)),
       length (requestLine method target) + 2, rest, None).
Proof.
  intros method target rest.
  assert (forallb isUpper method = true) as Hm by (vm_compute; reflexivity).
  assert (" "%char ∉ target) as Ht by absent_byte.
  assert (Index target CRLF = None) as Hc by (vm_compute; reflexivity).
  repeat (split; [assumption|]).
  exact (parseRequestLine_well_formed method target rest Hm Ht Hc).
Defined.

Lemma parseRequestLine_returns_first_line_witness :
  let data := Bytes ("GET / HTTP/1.1" +:+ crlf +:+ "Host: a") in
  let rl := mkRequestLine "1.1" "/" "GET" in
  let line := requestLine (Bytes (Method rl)) (Bytes (RequestTarget rl)) in
  parseRequestLine data = (Some rl, 16, Bytes "Host: a", None)
  ∧ (@None error = None
     ∧ HttpVersion rl = "1.1"
     ∧ forallb isUpper (Bytes (Method rl)) = true
     ∧ (" "%char ∉ Bytes (RequestTarget rl))
     ∧ data = line ++ CRLF ++ Bytes "Host: a"
     ∧ Index line CRLF = None
     ∧ 16 = length line + 2).
Proof.
  intros data rl line.
  assert (parseRequestLine data = (Some rl, 16, Bytes "Host: a", None))
    as Hp by (vm_compute; reflexivity).
  split; [exact Hp|].
  exact (parseRequestLine_returns_first_line _ _ _ _ _ Hp).
Defined.

Lemma parseRequestLine_error_shape_witness :
  let data := Bytes ("GET / HTTP/1.0" +:+ crlf) in
  let e := ErrorInvalidVersion "HTTP/1.0" in
  parseRequestLine data = (None, 0, data, Some e)
  ∧ (@None RequestLine = None ∧ 0 = 0 ∧ data = data
     ∧ e ≠ ERROR_PARSING_HTTP_VERSION_IN_REQUEST_LINE
     ∧ (e = ERROR_PARSING_METHOD_IN_REQUEST_LINE
        ∨ e = ERROR_PARSING_TARGET_IN_REQUEST_LINE
        ∨ (∃ version,
             e = ErrorInvalidVersion version ∧ version ≠ "HTTP/1.1")
        ∨ (∃ method, e = ErrorInvalidMethod method
                     ∧ forallb isUpper (Bytes method) = false))).
Proof.
  intros data e.
  assert (parseRequestLine data = (None, 0, data, Some e)) as Hp
    by (vm_compute; reflexivity).
  split; [exact Hp|].
  exact (parseRequestLine_error_shape _ _ _ _ _ Hp).
Defined.

Lemma parseRequestLine_missing_space_witness :
  let line := Bytes "GET" in
  let rest := Bytes "Host: a" in
  Index line CRLF = None
  ∧ ((" "%char ∉ line →
      parseRequestLine (line ++ CRLF ++ rest)
      = (None, 0, line ++ CRLF ++ rest,
         Some ERROR_PARSING_METHOD_IN_REQUEST_LINE))
     ∧ (∀ a b, line = a ++ Bytes " " ++ b →
               " "%char ∉ a → " "%char ∉ b →
               parseRequestLine (line ++ CRLF ++ rest)
               = (None, 0, line ++ CRLF ++ rest,
                  Some ERROR_PARSING_TARGET_IN_REQUEST_LINE))).
Proof.
  intros line rest.
  assert (Index line CRLF = None) as Hl by (vm_compute; reflexivity).
  split; [exact Hl|].
  exact (parseRequestLine_missing_space line rest Hl).
Defined.

Lemma Parse_optional_white_space_witness :
  let h : gmap string string := {[ "accept" := "*/*" ]} in
  let name := Bytes "Host" in
  let ws1 := Bytes " " in
  let v := Bytes "localhost:42069" in
  let ws2 := Bytes "  " in
  let key := str (lowerASCII <$> name) in
  validName name
  ∧ forallb asciiSpace ws1 = true
  ∧ forallb asciiSpace ws2 = true
  ∧ trimmedValue v = true
  ∧ Index (ws1 ++ v ++ ws2) CRLF = None
  ∧ Parse (U := identityTables) h (paddedFieldLine 2 name ws1 v ws2)
    = (match h !! key with
       | Some existingValue =>
           <[key := existingValue +:+ ", " +:+ str v]> h
       | None => <[key := str v]> h
       end, (length (paddedFieldLine 2 name ws1 v ws2), false, None)).
Proof.
  intros h name ws1 v ws2 key.
  assert (validName name) as Hn by valid_name.
  assert (forallb asciiSpace ws1 = true) as H1 by (vm_compute; reflexivity).
  assert (forallb asciiSpace ws2 = true) as H2 by (vm_compute; reflexivity).
  assert (trimmedValue v = true) as Hv by (vm_compute; reflexivity).
  assert (Index (ws1 ++ v ++ ws2) CRLF = None) as Hc
    by (vm_compute; reflexivity).
  repeat (split; [assumption|]).
  exact (Parse_optional_white_space (U := identityTables)
           h 2 name ws1 v ws2 Hn H1 H2 Hv Hc).
Defined.

Lemma Get_after_Parse_witness :
  let h : gmap string string := {[ "host" := "a" ]} in
  let name := Bytes "Host" in
  let raw := Bytes " localhost " in
  let name' := Bytes "HOST" in
  let key := str (lowerASCII <$> name) in
  validName name
  ∧ Index raw CRLF = None
  ∧ lowerASCII <$> name' = lowerASCII <$> name
  ∧ Get (U := identityTables)
        (Parse (U := identityTables) h (fieldLine name raw)).1 name'
    = (match h !! key with
       | Some existingValue =>
           existingValue +:+ ", "
           +:+ str (TrimSpace (U := identityTables) raw)
       | None => str (TrimSpace (U := identityTables) raw)
       end, None).
Proof.
  intros h name raw name' key.
  assert (validName name) as Hn by valid_name.
  assert (Index raw CRLF = None) as Hc by (vm_compute; reflexivity).
  assert (lowerASCII <$> name' = lowerASCII <$> name) as Hl
    by (vm_compute; reflexivity).
  repeat (split; [assumption|]).
  exact (Get_after_Parse (U := identityTables) h name raw name' Hn Hc Hl).
Defined.

Lemma default_headers_keep_their_capitals_witness :
  let key := Bytes "Content-Type" in
  let h := Set_ (U := identityTables) (GetDefaultHeaders 5)
                "Content-Type" "text/html" in
  forallb isASCII key = true
  ∧ (Get (U := identityTables) (GetDefaultHeaders 5) key
     = ("", Some ErrKeyDoesntExist)
     ∧ h !! "Content-Type" = Some "text/plain"
     ∧ h !! "content-type" = Some "text/html"
     ∧ size h = 4).
Proof.
  intros key h.
  assert (forallb isASCII key = true) as Hk by (vm_compute; reflexivity).
  split; [exact Hk|].
  exact (default_headers_keep_their_capitals (U := identityTables)
           5 key "text/html" Hk).
Defined.

Lemma reader_error_is_returned_witness :
  let cs := [Bytes "GET / HT"] in
  let e := ReaderError "connection reset by peer" in
  pending (U := identityTables) newRequest [] cs
  = Some (newRequest, Bytes "GET / HT")
  ∧ e ≠ io_EOF
  ∧ RequestFromReader (U := identityTables)
      (deliver cs ++ (Bytes "TP/1.1", Some e) :: [])
    = Some (None, Some e).
Proof.
  intros cs e.
  assert (pending (U := identityTables) newRequest [] cs
          = Some (newRequest, Bytes "GET / HT")) as Hp
    by (vm_compute; reflexivity).
  assert (e ≠ io_EOF) as He by discriminate.
  repeat (split; [assumption|]).
  exact (reader_error_is_returned (U := identityTables)
           cs (Bytes "TP/1.1") e [] _ _ Hp He).
Defined.

Lemma nothing_is_read_after_Done_witness :
  let data := Bytes scenarioA in
  let trailing := Bytes "body" in
  let r := mkRequest (mkRequestLine "1.1" "/" "GET")
                     (Some {[ "host" := "localhost:42069" ]})
                     requestStateDone in
  let cs := [Bytes ("GET / HTTP/1.1" +:+ crlf +:+ "Ho");
             Bytes ("st: localhost:42069" +:+ crlf +:+ crlf +:+ "body")] in
  let rd := [(Bytes "more", Some (ReaderError "reset"))] in
  parse (U := identityTables) newRequest data
  = Some (r, (length data, None))
  ∧ request.state r = requestStateDone
  ∧ concat cs = data ++ trailing
  ∧ RequestFromReader (U := identityTables) (deliver cs ++ rd)
    = Some (Some r, None).
Proof.
  intros data trailing r cs rd.
  assert (parse (U := identityTables) newRequest data
          = Some (r, (length data, None))) as Hp
    by (vm_compute; reflexivity).
  assert (request.state r = requestStateDone) as Hd by reflexivity.
  assert (concat cs = data ++ trailing) as Hcs by (vm_compute; reflexivity).
  repeat (split; [assumption|]).
  exact (nothing_is_read_after_Done (U := identityTables)
           data trailing r _ cs rd Hp Hd Hcs).
Defined.

Lemma parse_leaves_no_complete_line_witness :
  let p := Bytes scenarioF in
  let r' := mkRequest (mkRequestLine "1.1" "/" "GET")
                      (Some {[ "host" := "localhost" ]})
                      requestStateParsingHeaders in
  parse (U := identityTables) newRequest p = Some (r', (33, None))
  ∧ request.state r' ≠ requestStateDone
  ∧ Index (drop 33 p) CRLF = None.
Proof.
  intros p r'.
  assert (parse (U := identityTables) newRequest p = Some (r', (33, None)))
    as Hp by (vm_compute; reflexivity).
  assert (request.state r' ≠ requestStateDone) as Hd by discriminate.
  repeat (split; [assumption|]).
  exact (parse_leaves_no_complete_line (U := identityTables)
           newRequest r' p 33 Hp Hd).
Defined.

Lemma well_formed_request_is_parsed_witness :
  let method := Bytes "GET" in
  let target := Bytes "/coffee" in
  let fields := [(Bytes "Host", Bytes " localhost:42069");
                 (Bytes "Accept", Bytes "*/*")] in
  let trailing := Bytes "body" in
  let cs := [requestLine method target; CRLF;
             concat ((λ f, fieldLine f.1 f.2) <$> fields);
             CRLF ++ trailing] in
  forallb isUpper method = true
  ∧ (" "%char ∉ target)
  ∧ Index target CRLF = None
  ∧ Forall (λ f : bytes * bytes, validName f.1 ∧ Index f.2 CRLF = None)
           fields
  ∧ concat cs = requestBytes method target fields ++ trailing
  ∧ RequestFromReader (U := identityTables) (deliver cs ++ [])
    = Some (Some (mkRequest
                    (mkRequestLine "1.1" (str target) (str method))
                    (Some (foldl (addField (U := identityTables)) ∅ fields))
                    requestStateDone),
            None).
Proof.
  intros method target fields trailing cs.
  assert (forallb isUpper method = true) as Hm by (vm_compute; reflexivity).
  assert (" "%char ∉ target) as Ht by absent_byte.
  assert (Index target CRLF = None) as Hc by (vm_compute; reflexivity).
  assert (Forall (λ f : bytes * bytes,
                    validName f.1 ∧ Index f.2 CRLF = None) fields) as Hf.
  { repeat apply Forall_cons_2; try apply Forall_nil_2;
      (split; [valid_name|vm_compute; reflexivity]). }
  assert (concat cs = requestBytes method target fields ++ trailing)
    as Hcs by (vm_compute; reflexivity).
  repeat (split; [assumption|]).
  exact (well_formed_request_is_parsed (U := identityTables)
           method target trailing fields cs [] Hm Ht Hc Hf Hcs).
Defined.

Lemma returned_request_invariant_witness :
  let r := mkRequest (mkRequestLine "1.1" "/" "GET")
                     (Some {[ "host" := "localhost" ]})
                     requestStateDone in
  RequestFromReader (U := identityTables) (deliver [Bytes scenarioF])
  = Some (Some r, None)
  ∧ (lineInvariant (Line r)
     ∧ ∀ h k v, Headers r = Some h → h !! k = Some v →
                forallb isTokenChar (Bytes k) = true
                ∧ forallb (λ b, negb (isUpper b)) (Bytes k) = true).
Proof.
  intros r.
  assert (RequestFromReader (U := identityTables)
            (deliver [Bytes scenarioF]) = Some (Some r, None)) as Hr
    by (vm_compute; reflexivity).
  split; [exact Hr|].
  exact (returned_request_invariant (U := identityTables) _ _ _ Hr).
Defined.

Lemma handle_answers_well_formed_request_witness :
  let method := Bytes "GET" in
  let target := Bytes "/400" in
  let fields := [(Bytes "Host", Bytes " localhost:42069")] in
  let cs := [requestBytes method target fields] in
  forallb isUpper method = true
  ∧ (" "%char ∉ target)
  ∧ Index target CRLF = None
  ∧ Forall (λ f : bytes * bytes, validName f.1 ∧ Index f.2 CRLF = None)
           fields
  ∧ concat cs = requestBytes method target fields ++ []
  ∧ server.handle (U := identityTables)
      (tcplistener.handler (U := identityTables) (IO := scriptedWriter)
         map_to_list)
      (deliver cs ++ []) ([], [])
    = Some (([] ++ [Bytes (answerFor (str target)).1]
                ++ (headerLine
                      <$> map_to_list
                            (answerHeaders (answerFor (str target)).2))
                ++ [CRLF; Bytes (answerFor (str target)).2], []),
            []).
Proof.
  intros method target fields cs.
  assert (forallb isUpper method = true) as Hm by (vm_compute; reflexivity).
  assert (" "%char ∉ target) as Ht by absent_byte.
  assert (Index target CRLF = None) as Hc by (vm_compute; reflexivity).
  assert (Forall (λ f : bytes * bytes,
                    validName f.1 ∧ Index f.2 CRLF = None) fields) as Hf.
  { repeat apply Forall_cons_2; try apply Forall_nil_2;
      (split; [valid_name|vm_compute; reflexivity]). }
  assert (concat cs = requestBytes method target fields ++ [])
    as Hcs by (vm_compute; reflexivity).
  repeat (split; [assumption|]).
  exact (handle_answers_well_formed_request (U := identityTables)
           map_to_list method target [] fields cs [] [] Hm Ht Hc Hf Hcs).
Defined.

Lemma chunkReader_reads_witness :
  let s := "GET / HTTP/1.1" in
  (1 ≤ 3)%Z
  ∧ (Z.of_nat (length (Bytes s)) + 3 < 2 ^ (64 - 1))%Z
  ∧ length (Bytes s) < 15
  ∧ request_test.reads 64 15 (request_test.mkChunkReader s 3 0)
    = Some (chunkReader (Bytes s) (Z.to_nat 3)).
Proof.
  intros s.
  assert (1 ≤ 3)%Z as Hk by lia.
  assert (Z.of_nat (length (Bytes s)) + 3 < 2 ^ (64 - 1))%Z as Hmax
    by (vm_compute; reflexivity).
  assert (length (Bytes s) < 15) as Hf by (vm_compute; lia).
  repeat (split; [assumption|]).
  exact (chunkReader_reads 64 s 3 15 Hk Hmax Hf).
Defined.

Lemma getLinesChannel_lines_witness :
  let ls := [Bytes "hello"; []; Bytes "world"] in
  let tail := Bytes "!" in
  let cs := [Bytes "hel"; Bytes "lo" ++ [LF; LF] ++ Bytes "wor";
             Bytes "ld" ++ [LF] ++ Bytes "!"] in
  let sent := (str <$> ls)
              ++ match tail with [] => [] | _ => [str tail] end in
  Forall (λ l, LF ∉ l) ls
  ∧ (LF ∉ tail)
  ∧ concat cs = terminated ls ++ tail
  ∧ (tcplistener_lines.getLinesChannel (deliver cs) = Some (sent, [])
     ∧ ∀ d e rd,
         tcplistener_lines.getLinesChannel
           (deliver cs ++ (d, Some e) :: rd)
         = Some (sent, if bool_decide (e ≠ io_EOF) then [e] else [])).
Proof.
  intros ls tail cs sent.
  assert (Forall (λ l, LF ∉ l) ls) as Hls.
  { repeat apply Forall_cons_2; try apply Forall_nil_2; absent_byte. }
  assert (LF ∉ tail) as Ht by absent_byte.
  assert (concat cs = terminated ls ++ tail) as Hcs
    by (vm_compute; reflexivity).
  repeat (split; [assumption|]).
  exact (getLinesChannel_lines ls tail cs Hls Ht Hcs).
Defined.

Lemma handler_stops_at_failed_write_witness :
  let req := mkRequest (mkRequestLine "1.1" "/500" "GET") None
                       requestStateDone in
  let e := WriterError "broken pipe" in
  let path := RequestTarget (Line req) in
  let entries := map_to_list (answerHeaders (answerFor path).2) in
  2 < length (answerWrites path entries)
  ∧ tcplistener.handler (U := identityTables) (IO := scriptedWriter)
      map_to_list
      (NewWriter ([], replicate 2 None ++ Some e :: [])) (Some req)
    = (mkWriter ([] ++ take 2 (answerWrites path entries), [])
                (failurePhase (length entries) 2).2,
       [((failurePhase (length entries) 2).1, e)]).
Proof.
  intros req e path entries.
  assert (2 < length (answerWrites path entries)) as Hi
    by (vm_compute; lia).
  split; [exact Hi|].
  exact (handler_stops_at_failed_write (U := identityTables) map_to_list
           req [] 2 e [] Hi).
Defined.

End more_concrete_inputs.
